(** * Star registry ledger: a shallow embedding of [src/blockchain.js]

    The [Blockchain] class keeps an array of references to [Block] objects
    and a height counter.  Its methods return promises; here every method is
    a computation over an explicit store (the object heap, [this.chain],
    [this.height] and the number of clock readings taken so far) that ends
    in a settled or pending promise.  A method as a computation is the call
    run on its own, from the moment it is made until its promise settles.
    Every method runs in the turn of its caller up to its first [await];
    for [_addBlock] and [initializeChain] that part and the part that runs
    once the awaited validation has resolved are also given separately,
    which is what the constructor (it does not await the initialization)
    and calls made before an earlier one has settled are described with. *)

From Stdlib Require Import ZArith String Ascii List Lia Bool Sorted.
From stdpp Require Import base option list strings pretty.

Local Open Scope string_scope.

(** ** JavaScript primitives used by the class *)

Module JS.

(** A JS number as the class uses it: an integer or [NaN].  Values come
    from [parseInt] and one subtraction, and are only compared with [>]
    against 300.  On doubles this comparison gives the same verdict as on
    the exact integers whenever the clock reading is below 2^53. *)
Inductive number := Num (z : Z) | NaN.

Definition sub (a b : number) : number :=
  match a, b with
  | Num x, Num y => Num (x - y)
  | _, _ => NaN
  end.

(** [a > b]; any comparison with [NaN] is false. *)
Definition gt (a b : number) : bool :=
  match a, b with
  | Num x, Num y => (y <? x)%Z
  | _, _ => false
  end.

(** [s.split(sep)] for a one-character separator. *)
Fixpoint split (sep : ascii) (s : string) : list string :=
  match s with
  | EmptyString => [EmptyString]
  | String c s' =>
      if Ascii.eqb c sep then EmptyString :: split sep s'
      else match split sep s' with
           | w :: ws => String c w :: ws
           | [] => [String c EmptyString]
           end
  end.

(** [s.slice(0, -3)]: the text without its last three characters. *)
Definition slice_0_m3 (s : string) : string :=
  substring 0 (String.length s - 3) s.

(** [n.toString()] for an integer. *)
Definition toString (n : Z) : string := pretty n.

(** White space and line terminators of one UTF-16 code unit below 128:
    TAB, LF, VT, FF, CR and SP. *)
Definition isWhiteSpace (c : ascii) : bool :=
  let n := nat_of_ascii c in
  (Nat.eqb n 9 || Nat.eqb n 10 || Nat.eqb n 11 || Nat.eqb n 12
   || Nat.eqb n 13 || Nat.eqb n 32)%bool.

(** Whether the third byte [c] completes, after the UTF-8 bytes E2 80, a
    white space or line terminator: U+2000 to U+200A, U+2028, U+2029 and
    U+202F. *)
Definition isSpaceAfter_E2_80 (c : ascii) : bool :=
  let n := nat_of_ascii c in
  ((Nat.leb 128 n && Nat.leb n 138) || Nat.eqb n 168 || Nat.eqb n 169
   || Nat.eqb n 175)%bool.

(** The text without the white space and line terminators it starts
    with, which is what [parseInt] skips.  A string is the UTF-8 text of
    the JS string, so that the characters above 127 take two or three
    bytes: U+00A0 (C2 A0), U+1680 (E1 9A 80), U+2000 to U+200A, U+2028,
    U+2029, U+202F (E2 80 ..), U+205F (E2 81 9F), U+3000 (E3 80 80) and
    U+FEFF (EF BB BF). *)
Fixpoint trimStart (s : string) : string :=
  match s with
  | EmptyString => s
  | String c s1 =>
      if isWhiteSpace c then trimStart s1
      else
        let n := nat_of_ascii c in
        if Nat.eqb n 194 then
          match s1 with
          | String c2 s2 =>
              if Nat.eqb (nat_of_ascii c2) 160 then trimStart s2 else s
          | EmptyString => s
          end
        else if (Nat.eqb n 225 || Nat.eqb n 226 || Nat.eqb n 227 || Nat.eqb n 239)%bool then
          match s1 with
          | String c2 (String c3 s3) =>
              let n2 := nat_of_ascii c2 in
              let n3 := nat_of_ascii c3 in
              if ((Nat.eqb n 225 && Nat.eqb n2 154 && Nat.eqb n3 128)
                  || (Nat.eqb n 226 && Nat.eqb n2 128 && isSpaceAfter_E2_80 c3)
                  || (Nat.eqb n 226 && Nat.eqb n2 129 && Nat.eqb n3 159)
                  || (Nat.eqb n 227 && Nat.eqb n2 128 && Nat.eqb n3 128)
                  || (Nat.eqb n 239 && Nat.eqb n2 187 && Nat.eqb n3 191))%bool
              then trimStart s3 else s
          | _ => s
          end
        else s
  end.

(** Value of a character as a digit in some radix up to 36. *)
Definition digitValue (c : ascii) : option Z :=
  let n := Z.of_nat (nat_of_ascii c) in
  if ((48 <=? n) && (n <=? 57))%Z then Some (n - 48)%Z
  else if ((97 <=? n) && (n <=? 122))%Z then Some (n - 87)%Z
  else if ((65 <=? n) && (n <=? 90))%Z then Some (n - 55)%Z
  else None.

(** Longest prefix of radix-[R] digits; [acc] is [None] until a digit
    has been read. *)
Fixpoint parseDigits (R : Z) (s : string) (acc : option Z) : option Z :=
  match s with
  | EmptyString => acc
  | String c s' =>
      match digitValue c with
      | Some d =>
          if (d <? R)%Z then parseDigits R s' (Some (R * default 0%Z acc + d)%Z)
          else acc
      | None => acc
      end
  end.

(** [parseInt(text)] with no radix argument. *)
Definition parseIntText (s : string) : number :=
  let s1 := trimStart s in
  let '(sign, s2) :=
    match s1 with
    | String "-"%char r => ((-1)%Z, r)
    | String "+"%char r => (1%Z, r)
    | _ => (1%Z, s1)
    end in
  let '(R, s3) :=
    match s2 with
    | String "0"%char (String "x"%char r) => (16%Z, r)
    | String "0"%char (String "X"%char r) => (16%Z, r)
    | _ => (10%Z, s2)
    end in
  match parseDigits R s3 None with
  | Some n => Num (sign * n)
  | None => NaN
  end.

(** [parseInt(v)] where [v] is a string or [undefined] ([None]):
    [undefined] is first converted to the text "undefined". *)
Definition parseInt (v : option string) : number :=
  match v with
  | Some s => parseIntText s
  | None => parseIntText "undefined"
  end.

(** [new Date().getTime().toString().slice(0, -3)] for a clock reading
    in milliseconds. *)
Definition secondsText (ms : Z) : string := slice_0_m3 (toString ms).

End JS.

(** ** Errors and promises *)

(** What a promise of the class can be rejected with. *)
Inductive Reason :=
| Error (message : string)   (** [new Error(message)], thrown in blockchain.js *)
| TypeError                  (** raised by the runtime: member access on [undefined] *)
| Thrown (e : string)        (** an error raised by a collaborator, by its message *)
| Text (s : string).         (** [reject('...')] with a bare string *)

(** Final state of a promise. *)
Inductive Promise (A : Type) :=
| Resolved (a : A)
| Rejected (e : Reason)
| Pending.                   (** never settled *)
Arguments Resolved {A} a.
Arguments Rejected {A} e.
Arguments Pending {A}.

(** Outcome of a synchronous call into a collaborator: a result, or an
    error of the collaborator's own, kept by its message. *)
Inductive Call (A : Type) :=
| Returns (a : A)
| Throws (e : string).
Arguments Returns {A} a.
Arguments Throws {A} e.

(** 5 mins *)
Definition MesgTimeLimitSec : Z := 5 * 60.

(** The errors of the class, under the names the specification gives them. *)
Definition ChallengeExpiredError : Reason :=
  Error ("Rejected: Exceed time limit of more than "
           ++ JS.toString MesgTimeLimitSec ++ " secs").
Definition SignatureInvalidError : Reason := Error "Message verification failed".
Definition ChainCorruptedError : Reason := Error "Invalid blockchain".
Definition NotFoundError : Reason := Text "Block with the hash not found".

(** ** Blocks *)

(** Opaque star data handed over by the client. *)
Definition Star : Type := string.

(** The two payloads blockchain.js builds: [{ data: 'Genesis Block' }] and
    [{ owner: address, star }]. *)
Inductive Payload :=
| GenesisData
| StarData (owner : string) (star : Star).

(** [data.owner]; [None] is [undefined]. *)
Definition Payload_owner (data : Payload) : option string :=
  match data with
  | GenesisData => None
  | StarData o _ => Some o
  end.

(** Modelled from the spec: block.js is not among the sources, so the stored
    body is kept by what the payload codec makes of it: the encoding of a
    payload, or bytes that do not decode. *)
Inductive Body :=
| Encoded (data : Payload)
| Malformed (raw : string).

(** A [Block] object.  blockchain.js reads and writes [hash], [height],
    [time] and [previousBlockHash]; [None] stands for [null]. *)
Record Block := mkBlock {
  hash : option string;
  height : Z;
  body : Body;
  time : string;
  previousBlockHash : option string
}.

Definition set_time (v : string) (b : Block) : Block :=
  mkBlock (hash b) (height b) (body b) v (previousBlockHash b).
Definition set_height (v : Z) (b : Block) : Block :=
  mkBlock (hash b) v (body b) (time b) (previousBlockHash b).
Definition set_previousBlockHash (v : option string) (b : Block) : Block :=
  mkBlock (hash b) (height b) (body b) (time b) v.
Definition set_hash (v : option string) (b : Block) : Block :=
  mkBlock v (height b) (body b) (time b) (previousBlockHash b).

#[global] Instance Reason_eq_dec : EqDecision Reason.
Proof. solve_decision. Defined.
#[global] Instance Payload_eq_dec : EqDecision Payload.
Proof. solve_decision. Defined.
#[global] Instance Body_eq_dec : EqDecision Body.
Proof. solve_decision. Defined.
#[global] Instance Block_eq_dec : EqDecision Block.
Proof. solve_decision. Defined.

(** The methods of block.js that blockchain.js calls.  The file is not among
    the sources: the class is an interface here, and [SpecBlock] below is the
    implementation the specification describes. *)
Class BlockClass := {
  Block_new : Payload -> Block;          (** [new BlockClass.Block(data)] *)
  isGenesisBlock : Block -> bool;        (** [block.isGenesisBlock()] *)
  validate : Block -> bool;              (** what [block.validate()] resolves with *)
  getBData : Block -> Call (Promise Payload)   (** [block.getBData()] *)
}.

(** What lies outside the repository: the libraries and the clock. *)
Class Environment := {
  (** [SHA256(JSON.stringify(block)).toString()] *)
  SHA256_stringify : Block -> string;
  (** [bitcoinMessage.verify(message, address, signature)] *)
  bitcoinMessage_verify : string -> string -> string -> Call bool;
  (** [new Date().getTime()]: the n-th reading of the clock, in milliseconds *)
  Date_getTime : nat -> Z
}.

(** ** The store *)

(** A reference to a [Block] object: its index in the heap.  A reference
    that points nowhere behaves like [undefined]. *)
Abbreviation loc := nat (only parsing).

Record Store := mkStore {
  heap : list Block;      (** the Block objects allocated so far *)
  chain : list loc;       (** [this.chain] *)
  chainHeight : Z;        (** [this.height] *)
  ticks : nat             (** clock readings taken so far *)
}.

(** A JS value that is [null], [undefined] or a Block object. *)
Inductive Value := Null | Undefined | Ref (l : loc).

(** [v !== null] *)
Definition strict_neq_null (v : Value) : bool :=
  match v with
  | Null => false
  | _ => true
  end.

(** [a === b] and [a != b] on values that are [null] or a string. *)
Definition strict_eq (a b : option string) : bool := bool_decide (a = b).
Definition loose_neq (a b : option string) : bool := negb (bool_decide (a = b)).

(** ** Computations: store passing with rejection *)

Definition Js (A : Type) : Type := Store -> Promise A * Store.

Definition Js_ret {A} (a : A) : Js A := fun s => (Resolved a, s).

Definition Js_bind {A B} (m : Js A) (f : A -> Js B) : Js B :=
  fun s =>
    match m s with
    | (Resolved a, s') => f a s'
    | (Rejected e, s') => (Rejected e, s')
    | (Pending, s') => (Pending, s')
    end.

Declare Scope js_scope.
Delimit Scope js_scope with js.
Notation "'let*' x := m 'in' k" := (Js_bind m (fun x => k))
  (at level 10, x name, m at level 100, k at level 200) : js_scope.
Notation "m ;;; k" := (Js_bind m (fun _ => k))
  (at level 100, k at level 200, right associativity) : js_scope.

(** [throw e] inside the [try] of a promise executor: the promise is
    rejected with [e]. *)
Definition throw {A} (e : Reason) : Js A := fun s => (Rejected e, s).

(** Reading a member of the object behind [l]. *)
Definition read (l : loc) : Js Block :=
  fun s =>
    match heap s !! l with
    | Some b => (Resolved b, s)
    | None => (Rejected TypeError, s)
    end.

(** Assigning to members of the object behind [l]. *)
Definition write (l : loc) (f : Block -> Block) : Js unit :=
  fun s =>
    match heap s !! l with
    | Some b => (Resolved tt, mkStore (<[l := f b]> (heap s)) (chain s) (chainHeight s) (ticks s))
    | None => (Rejected TypeError, s)
    end.

(** Allocating a new object. *)
Definition alloc (b : Block) : Js loc :=
  fun s => (Resolved (length (heap s)),
            mkStore (heap s ++ [b]) (chain s) (chainHeight s) (ticks s)).

Definition get_chain : Js (list loc) := fun s => (Resolved (chain s), s).
Definition get_height : Js Z := fun s => (Resolved (chainHeight s), s).
Definition chain_push (l : loc) : Js unit :=
  fun s => (Resolved tt, mkStore (heap s) (chain s ++ [l]) (chainHeight s) (ticks s)).
Definition set_chainHeight (h : Z) : Js unit :=
  fun s => (Resolved tt, mkStore (heap s) (chain s) h (ticks s)).

(** A call into a collaborator from inside a [try]. *)
Definition call {A} (c : Call A) : Js A :=
  match c with
  | Returns a => Js_ret a
  | Throws e => throw (Thrown e)
  end.

(** [arr[i]] followed by a member access: [undefined] raises. *)
Definition element (arr : list loc) (i : Z) : Js loc :=
  if (i <? 0)%Z then throw TypeError
  else match arr !! Z.to_nat i with
       | Some l => Js_ret l
       | None => throw TypeError
       end.

Local Open Scope js_scope.

Section Blockchain.

Context {BC : BlockClass} {Env : Environment}.

(** [new Date().getTime().toString().slice(0, -3)] *)
Definition now_seconds : Js string :=
  fun s => (Resolved (JS.secondsText (Date_getTime (ticks s))),
            mkStore (heap s) (chain s) (chainHeight s) (S (ticks s))).

(** The [for] loop of [validateChain]: [rest] is [self.chain] from index
    [i] on. *)
Fixpoint validateChain_loop (rest : list loc) (i : nat) (errorLog : list nat)
  : Js (list nat) :=
  match rest with
  | [] => Js_ret errorLog
  | l :: rest' =>
      let* block := read l in
      let isValid := validate block in
      if negb isValid then
        validateChain_loop rest' (S i) (errorLog ++ [i])
      else
        match rest' with
        | lnext :: _ =>
            let* nextBlock := read lnext in
            let previousHashOfNextBlock := previousBlockHash nextBlock in
            if loose_neq (hash block) previousHashOfNextBlock then
              validateChain_loop rest' (S i) (errorLog ++ [i])
            else validateChain_loop rest' (S i) errorLog
        | [] => validateChain_loop rest' (S i) errorLog
        end
  end.

Definition validateChain : Js (list nat) :=
  let* self_chain := get_chain in
  validateChain_loop self_chain 0 [].

Definition _addBlock (block : loc) : Js loc :=
  (* update block attributes *)
  let* t := now_seconds in
  write block (set_time t) ;;;
  let* self_chain := get_chain in
  write block (set_height (Z.of_nat (length self_chain))) ;;;
  let* b := read block in
  (if negb (isGenesisBlock b) then
     let* last := element self_chain (Z.of_nat (length self_chain) - 1) in
     let* lastBlock := read last in
     write block (set_previousBlockHash (hash lastBlock))
   else Js_ret tt) ;;;
  let* b := read block in
  write block (set_hash (Some (SHA256_stringify b))) ;;;
  (* validate chain *)
  let* errorLogs := validateChain in
  (if (0 <? length errorLogs)%nat then throw (Error "Invalid blockchain")
   else Js_ret tt) ;;;
  (* add to blockchain *)
  chain_push block ;;;
  (* update blockchain height *)
  let* b := read block in
  set_chainHeight (height b) ;;;
  Js_ret block.

(** Lines 72 to 78 of [_addBlock]: the stamps and the digest.  This part
    runs in the turn of the caller, before the [await] of line 81. *)
Definition _addBlock_begin (block : loc) : Js unit :=
  let* t := now_seconds in
  write block (set_time t) ;;;
  let* self_chain := get_chain in
  write block (set_height (Z.of_nat (length self_chain))) ;;;
  let* b := read block in
  (if negb (isGenesisBlock b) then
     let* last := element self_chain (Z.of_nat (length self_chain) - 1) in
     let* lastBlock := read last in
     write block (set_previousBlockHash (hash lastBlock))
   else Js_ret tt) ;;;
  let* b := read block in
  write block (set_hash (Some (SHA256_stringify b))).

(** Lines 82 to 93 of [_addBlock]: what runs once the validation awaited
    at line 81 has resolved with [errorLogs]. *)
Definition _addBlock_commit (block : loc) (errorLogs : list nat) : Js loc :=
  (if (0 <? length errorLogs)%nat then throw (Error "Invalid blockchain")
   else Js_ret tt) ;;;
  chain_push block ;;;
  let* b := read block in
  set_chainHeight (height b) ;;;
  Js_ret block.

(** Two [_addBlock] calls made in the same turn, the second before the
    first has settled (two [submitStar] calls that are not awaited make
    them).  Each call runs up to its [await] when it is made.  The loops
    of the two validations then advance in step, one entry of the chain
    per turn of the job queue, and the call made first resumes one turn
    after its loop has ended: both validations have read the chain by the
    time either call pushes.  The calls resume in the order they were
    made.  For entries that are not in the chain, which is how the class
    calls [_addBlock], what validation reads does not depend on where
    between the stamps and the first push it is read. *)
Definition _addBlock_overlapping (blockA blockB : loc)
  : Store -> (Promise loc * Promise loc) * Store :=
  fun s =>
    let '(beganA, s1) := _addBlock_begin blockA s in
    let '(beganB, s2) := _addBlock_begin blockB s1 in
    let validated := fst (validateChain s2) in
    let resume (began : Promise unit) (block : loc) : Js loc :=
      fun s =>
        match began, validated with
        | Resolved _, Resolved errorLogs => _addBlock_commit block errorLogs s
        | Resolved _, Rejected e => (Rejected e, s)
        | Resolved _, Pending => (Pending, s)
        | Rejected e, _ => (Rejected e, s)
        | Pending, _ => (Pending, s)
        end in
    let '(settledA, s3) := resume beganA blockA s2 in
    let '(settledB, s4) := resume beganB blockB s3 in
    ((settledA, settledB), s4).

Definition initializeChain : Js unit :=
  let* h := get_height in
  if (h =? -1)%Z then
    let* block := alloc (Block_new GenesisData) in
    _addBlock block ;;;
    Js_ret tt
  else Js_ret tt.

(** The part of [initializeChain] that runs in the turn of its caller:
    up to the [await] inside [_addBlock].  The result is the entry whose
    append is left pending, if there is one. *)
Definition initializeChain_begin : Js (option loc) :=
  let* h := get_height in
  if (h =? -1)%Z then
    let* block := alloc (Block_new GenesisData) in
    _addBlock_begin block ;;;
    Js_ret (Some block)
  else Js_ret None.

(** [new Blockchain()], in a heap [h] after [t] clock readings: the
    engine as the constructor returns it.  The constructor does not await
    [initializeChain()], so the genesis entry has its stamps but is not
    in the chain yet. *)
Definition Blockchain_new (h : list Block) (t : nat) : Store :=
  snd (initializeChain_begin (mkStore h [] (-1) t)).

(** The engine once the initialization that the constructor started has
    settled, no other method having been called in between. *)
Definition initialized (h : list Block) (t : nat) : Store :=
  snd (initializeChain (mkStore h [] (-1) t)).

Definition getChainHeight : Js Z := get_height.

Definition requestMessageOwnershipVerification (address : string) : Js string :=
  let* t := now_seconds in
  Js_ret (address ++ ":" ++ t ++ ":starRegistry").

Definition submitStar (address message signature : string) (star : Star) : Js loc :=
  let time := JS.parseInt (JS.split ":" message !! 1%nat) in
  let* t := now_seconds in
  let currentTime := JS.parseInt (Some t) in
  (* Check if the time elapsed is less than 5 minutes *)
  let elapsedTime := JS.sub currentTime time in
  if JS.gt elapsedTime (JS.Num MesgTimeLimitSec) then
    throw (Error ("Rejected: Exceed time limit of more than "
                    ++ JS.toString MesgTimeLimitSec ++ " secs"))
  else
    (* Verify the message *)
    let* isVerified := call (bitcoinMessage_verify message address signature) in
    if negb isVerified then throw (Error "Message verification failed")
    else
      (* Create block *)
      let data := StarData address star in
      let* block := alloc (Block_new data) in
      (* Add to chain *)
      _addBlock block ;;;
      Js_ret block.

(** [arr.find(pred)]: the first element satisfying [pred], or [undefined]. *)
Fixpoint Array_find (pred : Block -> bool) (arr : list loc) : Js Value :=
  match arr with
  | [] => Js_ret Undefined
  | l :: arr' =>
      let* myBlock := read l in
      if pred myBlock then Js_ret (Ref l) else Array_find pred arr'
  end.

Definition getBlockByHash (h : option string) : Js Value :=
  let* self_chain := get_chain in
  let* block := Array_find (fun myBlock => strict_eq (hash myBlock) h) self_chain in
  if strict_neq_null block then Js_ret block
  else throw (Text "Block with the hash not found").

(** [arr.filter(pred)[0]] *)
Fixpoint Array_filter_first (pred : Block -> bool) (arr : list loc) : Js Value :=
  match arr with
  | [] => Js_ret Undefined
  | l :: arr' =>
      let* p := read l in
      if pred p then
        Array_filter_first pred arr' ;;; Js_ret (Ref l)
      else Array_filter_first pred arr'
  end.

Definition getBlockByHeight (h : Z) : Js Value :=
  let* self_chain := get_chain in
  let* block := Array_filter_first (fun p => (height p =? h)%Z) self_chain in
  match block with
  | Ref l => Js_ret (Ref l)
  | _ => Js_ret Null
  end.

(** [promise.then(f)] for a callback that cannot throw. *)
Definition Promise_then {A B} (p : Promise A) (f : A -> B) : Promise B :=
  match p with
  | Resolved a => Resolved (f a)
  | Rejected e => Rejected e
  | Pending => Pending
  end.

(** [Promise.all(ps)]: rejected as soon as one input is, resolved when all
    are, pending otherwise. *)
Fixpoint Promise_all {A} (ps : list (Promise A)) : Promise (list A) :=
  match ps with
  | [] => Resolved []
  | p :: ps' =>
      match p, Promise_all ps' with
      | Rejected e, _ => Rejected e
      | _, Rejected e => Rejected e
      | Resolved a, Resolved l => Resolved (a :: l)
      | _, _ => Pending
      end
  end.

(** The [for] loop of [getStarsByWalletAddress], which collects one promise
    per block; [None] is the [null] the callback returns. *)
Fixpoint getStars_loop (address : string) (rest : list loc)
  : Js (list (Promise (option Payload))) :=
  match rest with
  | [] => Js_ret []
  | l :: rest' =>
      let* myBlock := read l in
      let* p := call (getBData myBlock) in
      let promise :=
        Promise_then p (fun data =>
          if bool_decide (Payload_owner data = Some address) then Some data
          else None) in
      let* allPromises := getStars_loop address rest' in
      Js_ret (promise :: allPromises)
  end.

(** [result.filter((value) => value != null)] *)
Definition filter_non_null (result : list (option Payload)) : list Payload :=
  omap id result.

Definition getStarsByWalletAddress (address : string) : Js (list Payload) :=
  let* self_chain := get_chain in
  let* allPromises := getStars_loop address self_chain in
  fun s =>
    (* the rejection of Promise.all has no handler *)
    match Promise_all allPromises with
    | Resolved result => (Resolved (filter_non_null result), s)
    | Rejected _ => (Pending, s)
    | Pending => (Pending, s)
    end.

End Blockchain.

(** ** The Block class of the specification *)

(** Modelled from the spec: block.js is not among the sources.  Construct
    leaves height, timestamp, previous digest and digest unset (0 and the
    empty text stand for the unset height and timestamp, which [_addBlock]
    overwrites before anything reads them); IsGenesis compares the payload
    with the genesis sentinel; Validate recomputes the digest with the
    digest field left out and compares, a payload that does not decode
    being a validation failure; DecodePayload reverses the encoding or
    fails with a DecodeError. *)
Definition SpecBlock {Env : Environment} : BlockClass := {|
  Block_new data := mkBlock None 0 (Encoded data) "" None;
  isGenesisBlock b := bool_decide (body b = Encoded GenesisData);
  validate b :=
    match body b with
    | Encoded _ => bool_decide (hash b = Some (SHA256_stringify (set_hash None b)))
    | Malformed _ => false
    end;
  getBData b :=
    match body b with
    | Encoded data => Returns (Resolved data)
    | Malformed _ => Returns (Rejected (Thrown "DecodeError"))
    end
|}.

(** ** A concrete environment, for running the class on examples *)

Module Demo.

Definition show_option (o : option string) : string :=
  match o with
  | Some x => "'" ++ x ++ "'"
  | None => "null"
  end.

Definition show_body (b : Body) : string :=
  match b with
  | Encoded GenesisData => "{data:'Genesis Block'}"
  | Encoded (StarData o st) => "{owner:'" ++ o ++ "',star:'" ++ st ++ "'}"
  | Malformed raw => "?" ++ raw
  end.

(** Stands in for the digest: the serialization itself. *)
Definition digest (b : Block) : string :=
  "{hash:" ++ show_option (hash b)
    ++ ",height:" ++ JS.toString (height b)
    ++ ",body:" ++ show_body (body b)
    ++ ",time:'" ++ time b
    ++ "',previousBlockHash:" ++ show_option (previousBlockHash b) ++ "}".

(** A verifier that accepts the signature ["signed:" ++ message], and
    raises on an empty signature. *)
Definition verify (message address signature : string) : Call bool :=
  if bool_decide (signature = "") then Throws "Invalid signature length"
  else Returns (bool_decide (signature = "signed:" ++ message)).

(** The n-th reading of the clock is second 1000 + 200 n. *)
#[export] Instance env : Environment := {|
  SHA256_stringify := digest;
  bitcoinMessage_verify := verify;
  Date_getTime := fun n => (1000000 + 200000 * Z.of_nat n)%Z
|}.

#[export] Instance block_class : BlockClass := SpecBlock.

(** A newly constructed engine once its initialization has settled; the
    genesis entry is sealed at second 1000, and the next reading of the
    clock gives second 1200. *)
Definition fresh : Store := initialized [] 0.

(** The same engine and two newly constructed entries (references 1 and
    2) that are not in the chain. *)
Definition fresh_and_two_entries : Store :=
  snd ((alloc (Block_new (StarData "addr1" "star A")) ;;;
        alloc (Block_new (StarData "addr2" "star B"))) fresh).

(** The engine after two [_addBlock] calls made in the same turn, for
    these two entries. *)
Definition overlapped : Store :=
  snd (_addBlock_overlapping 1 2 fresh_and_two_entries).

(** The chain after a second entry with the genesis payload was sealed
    and appended. *)
Definition two_genesis : Store :=
  snd ((let* block := alloc (Block_new GenesisData) in _addBlock block) fresh).

(** The chain after two stars were registered. *)
Definition two_stars : Store :=
  snd ((submitStar "addr1" "addr1:1000:starRegistry"
          "signed:addr1:1000:starRegistry" "star A" ;;;
        submitStar "addr2" "addr2:1500:starRegistry"
          "signed:addr2:1500:starRegistry" "star B")
         fresh).

(** The chain after the first of them. *)
Definition one_star : Store :=
  snd (submitStar "addr1" "addr1:1000:starRegistry"
         "signed:addr1:1000:starRegistry" "star A" fresh).

(** The same chain after the stored body of entry 1 was overwritten with
    bytes that do not decode. *)
Definition corrupted : Store :=
  mkStore
    (alter (fun b => mkBlock (hash b) (height b) (Malformed "zz") (time b)
                       (previousBlockHash b)) 1 (heap two_stars))
    (chain two_stars) (chainHeight two_stars) (ticks two_stars).

(** The corrupted chain, and a newly constructed entry (reference 3) that
    is not in it. *)
Definition corrupted_and_entry : Store :=
  snd (alloc (Block_new (StarData "addr3" "star C")) corrupted).

End Demo.

(** ** Vocabulary of the statements *)

(** Every reference held by the chain is a Block object. *)
Definition chain_allocated (s : Store) : Prop :=
  Forall (fun l => is_Some (heap s !! l)) (chain s).

(** [bs] are the entries of the chain, in order. *)
Definition entries_are (s : Store) (bs : list Block) : Prop :=
  Forall2 (fun l b => heap s !! l = Some b) (chain s) bs.

(** The store while [_addBlock] validates the chain: the entry carries
    [b] and one more clock reading has been taken. *)
Definition stamping (s : Store) (block : loc) (b : Block) : Store :=
  mkStore (<[block := b]> (heap s)) (chain s) (chainHeight s) (S (ticks s)).

(** The payload is owned by [address]. *)
Definition owned_by (address : string) (data : Payload) : Prop :=
  Payload_owner data = Some address.

#[global] Instance owned_by_dec (address : string) (data : Payload) :
  Decision (owned_by address data).
Proof. unfold owned_by. apply _. Defined.

Section Vocabulary.

Context {BC : BlockClass} {Env : Environment}.

(** Whether validation flags index [i] of the entries [bs]: the entry
    fails its own validation, or passes it and its successor refers back
    to another digest. *)
Definition flagged (bs : list Block) (i : nat) : bool :=
  match bs !! i with
  | Some b =>
      if negb (validate b) then true
      else match bs !! S i with
           | Some n => loose_neq (hash b) (previousBlockHash n)
           | None => false
           end
  | None => false
  end.

(** The error log over entries [bs], the first of which has index [i]. *)
Fixpoint errorsFrom (bs : list Block) (i : nat) : list nat :=
  match bs with
  | [] => []
  | b :: bs' =>
      if negb (validate b) then i :: errorsFrom bs' (S i)
      else match bs' with
           | n :: _ =>
               if loose_neq (hash b) (previousBlockHash n)
               then i :: errorsFrom bs' (S i)
               else errorsFrom bs' (S i)
           | [] => errorsFrom bs' (S i)
           end
  end.

(** The stamps [_addBlock] puts on entry [b0] before it validates the
    chain: [None] when the entry is not a genesis entry and the chain has
    no last entry to refer back to. *)
Definition stamped (s : Store) (b0 : Block) : option Block :=
  let b1 := set_height (Z.of_nat (length (chain s)))
              (set_time (JS.secondsText (Date_getTime (ticks s))) b0) in
  if isGenesisBlock b1 then Some b1
  else
    l ← last (chain s);
    lastBlock ← heap s !! l;
    Some (set_previousBlockHash (hash lastBlock) b1).

(** The sealed entry: stamped, then given its digest. *)
Definition sealed (b3 : Block) : Block :=
  set_hash (Some (SHA256_stringify b3)) b3.

(** The payload behind reference [l] decodes to [data]. *)
Definition decodes_to (s : Store) (l : loc) (data : Payload) : Prop :=
  exists b, heap s !! l = Some b /\ getBData b = Returns (Resolved data).

(** The store after one more reading of the clock. *)
Definition tick (s : Store) : Store :=
  mkStore (heap s) (chain s) (chainHeight s) (S (ticks s)).

(** [elapsedTime] of a [submitStar] call made in store [s]. *)
Definition elapsedTime (s : Store) (message : string) : JS.number :=
  JS.sub (JS.parseInt (Some (JS.secondsText (Date_getTime (ticks s)))))
         (JS.parseInt (JS.split ":" message !! 1%nat)).

(** What [submitStar] does once the time check has let the call through:
    verification, construction of the entry, sealing and appending. *)
Definition verify_and_append (address message signature : string) (star : Star)
  : Js loc :=
  let* isVerified := call (bitcoinMessage_verify message address signature) in
  if negb isVerified then throw (Error "Message verification failed")
  else
    let* block := alloc (Block_new (StarData address star)) in
    _addBlock block ;;;
    Js_ret block.

End Vocabulary.

(** Chains built, with the Block class of the specification, by calls
    made one at a time: the initialization that the constructor starts
    has settled before the first append is made, and each append is a
    successful [_addBlock] of a newly constructed entry, with a payload
    other than the genesis sentinel, that has settled before the next
    call is made.  The clock may be read in between.  Calls made while an
    earlier one is pending are not among these histories; they are what
    [_addBlock_overlapping] describes. *)
Inductive Built {Env : Environment} : Store -> Prop :=
| Built_init (h : list Block) (t : nat) :
    Built (initialized (BC := SpecBlock) h t)
| Built_append (s s1 s2 : Store) (data : Payload) (block : loc) :
    Built s ->
    data <> GenesisData ->
    alloc (Block_new (BlockClass := SpecBlock) data) s = (Resolved block, s1) ->
    _addBlock (BC := SpecBlock) block s1 = (Resolved block, s2) ->
    Built s2
| Built_tick (s : Store) :
    Built s ->
    Built (mkStore (heap s) (chain s) (chainHeight s) (S (ticks s))).

(** The same histories with no condition on the payloads; [datas] lists
    the payloads of the appended entries, in order. *)
Inductive Appended {Env : Environment} : Store -> list Payload -> Prop :=
| Appended_init (h : list Block) (t : nat) :
    Appended (initialized (BC := SpecBlock) h t) []
| Appended_append (s s1 s2 : Store) (datas : list Payload) (data : Payload)
    (block : loc) :
    Appended s datas ->
    alloc (Block_new (BlockClass := SpecBlock) data) s = (Resolved block, s1) ->
    _addBlock (BC := SpecBlock) block s1 = (Resolved block, s2) ->
    Appended s2 (datas ++ [data])
| Appended_tick (s : Store) (datas : list Payload) :
    Appended s datas ->
    Appended (mkStore (heap s) (chain s) (chainHeight s) (S (ticks s))) datas.

(** The entry at index [i] of the chain has height [i], and [this.height]
    is the length of the chain minus one. *)
Definition heights_are_indices (s : Store) : Prop :=
  forall i l b, chain s !! i = Some l -> heap s !! l = Some b ->
                height b = Z.of_nat i.

Definition height_is_last_index (s : Store) : Prop :=
  chainHeight s = (Z.of_nat (length (chain s)) - 1)%Z.

(** What holds of a chain with entries [bs] that was built by sealing and
    appending. *)
Record Sound {Env : Environment} (s : Store) (bs : list Block) : Prop := {
  sound_entries : entries_are s bs;
  sound_nonempty : chain s <> [];
  sound_height : forall i b, bs !! i = Some b -> height b = Z.of_nat i;
  sound_valid : forall i b, bs !! i = Some b -> validate (BlockClass := SpecBlock) b = true;
  sound_link : forall i b n,
      bs !! i = Some b -> bs !! S i = Some n -> previousBlockHash n = hash b;
  sound_engine : chainHeight s = (Z.of_nat (length (chain s)) - 1)%Z
}.

(** The history of an engine used through [submitStar] only, with the
    Block class of the specification and with calls made one at a time:
    the initialization that the constructor starts has settled before the
    first submission, and every submission, accepted or rejected, has
    settled before the next one is made.  The clock may be read in
    between.  [datas] lists the genesis payload and the payloads of the
    accepted submissions, in order. *)
Inductive Registered {Env : Environment} : Store -> list Payload -> Prop :=
| Registered_init (h : list Block) (t : nat) :
    Registered (initialized (BC := SpecBlock) h t) [GenesisData]
| Registered_accepted (s s' : Store) (datas : list Payload)
    (address message signature : string) (star : Star) (block : loc) :
    Registered s datas ->
    submitStar (BC := SpecBlock) address message signature star s
    = (Resolved block, s') ->
    Registered s' (datas ++ [StarData address star])
| Registered_rejected (s s' : Store) (datas : list Payload)
    (address message signature : string) (star : Star) (e : Reason) :
    Registered s datas ->
    submitStar (BC := SpecBlock) address message signature star s
    = (Rejected e, s') ->
    Registered s' datas
| Registered_tick (s : Store) (datas : list Payload) :
    Registered s datas ->
    Registered (mkStore (heap s) (chain s) (chainHeight s) (S (ticks s))) datas.

(** * Properties *)

Example split_challenge :
  JS.split ":" "addr1:1000:starRegistry" = ["addr1"; "1000"; "starRegistry"].
Proof. reflexivity. Qed.

Example parseInt_examples :
  JS.parseInt (Some "1000") = JS.Num 1000
  /\ JS.parseInt (Some "  -42abc") = JS.Num (-42)
  /\ JS.parseInt (Some "0x1F") = JS.Num 31
  /\ JS.parseInt (Some "") = JS.NaN
  /\ JS.parseInt (Some "abc") = JS.NaN
  /\ JS.parseInt None = JS.NaN.
Proof. repeat split; reflexivity. Qed.

(** White space before the number is skipped, also the no-break space
    U+00A0 and the em space U+2003; the zero-width space U+200B is not
    white space. *)
Example parseInt_white_space :
  JS.parseInt (Some (String (ascii_of_nat 9) (String (ascii_of_nat 10) " 12")))
  = JS.Num 12
  /\ JS.parseInt (Some (String (ascii_of_nat 194) (String (ascii_of_nat 160) "12")))
     = JS.Num 12
  /\ JS.parseInt (Some (String (ascii_of_nat 226) (String (ascii_of_nat 128)
                          (String (ascii_of_nat 131) "-12"))))
     = JS.Num (-12)
  /\ JS.parseInt (Some (String (ascii_of_nat 226) (String (ascii_of_nat 128)
                          (String (ascii_of_nat 139) "12"))))
     = JS.NaN.
Proof. repeat split; reflexivity. Qed.

Example secondsText_example : JS.secondsText 1200000999 = "1200000".
Proof. vm_compute. reflexivity. Qed.

Example two_stars_chain :
  chain Demo.two_stars = [0; 1; 2] /\ chainHeight Demo.two_stars = 2%Z.
Proof. vm_compute. split; reflexivity. Qed.

Example fresh_chain :
  chain Demo.fresh = [0] /\ chainHeight Demo.fresh = 0%Z
  /\ (previousBlockHash <$> heap Demo.fresh !! 0) = Some None.
Proof. vm_compute. repeat split; reflexivity. Qed.

(** ** The text of the clock *)

Lemma string_app_cons (x : ascii) (a b : string) :
  String x a +:+ b = String x (a +:+ b).
Proof. reflexivity. Qed.

Lemma string_app_assoc (a b c : string) : (a +:+ b) +:+ c = a +:+ (b +:+ c).
Proof.
  induction a as [|x a IH]; [done|]. by rewrite !string_app_cons, IH.
Qed.

Lemma string_length_app (a b : string) :
  String.length (a +:+ b) = String.length a + String.length b.
Proof.
  induction a as [|x a IH]; [done|].
  rewrite string_app_cons. cbn [String.length]. by rewrite IH.
Qed.

Lemma pretty_N_go_app (x : N) : forall s, pretty_N_go x s = pretty_N_go x "" +:+ s.
Proof.
  induction (N.lt_wf_0 x) as [x _ IH]; intros s.
  destruct (decide (x = 0%N)) as [->|Hx]; [done|].
  rewrite !(pretty_N_go_step x) by lia.
  assert (Hlt : (x `div` 10 < x)%N) by (apply N.div_lt; lia).
  rewrite (IH _ Hlt (String _ s)), (IH _ Hlt (String _ "")).
  by rewrite string_app_assoc.
Qed.

Lemma pretty_N_go_thousands (x : N) :
  (1000 <= x)%N ->
  exists a b c, pretty_N_go x "" = pretty_N_go (x `div` 1000) "" +:+ String a (String b (String c "")).
Proof.
  intros Hx.
  assert (H10 : (10 <= x `div` 10)%N) by (apply N.div_le_lower_bound; lia).
  assert (H100 : (1 <= (x `div` 10) `div` 10)%N) by (apply N.div_le_lower_bound; lia).
  rewrite (pretty_N_go_step x) by lia.
  rewrite (pretty_N_go_step (x `div` 10)) by lia.
  rewrite (pretty_N_go_step ((x `div` 10) `div` 10)) by lia.
  rewrite !N.Div0.div_div. change (10 * 10 * 10)%N with 1000%N.
  rewrite pretty_N_go_app. eauto.
Qed.

Lemma slice_0_m3_app (p : string) (a b c : ascii) :
  JS.slice_0_m3 (p +:+ String a (String b (String c ""))) = p.
Proof.
  unfold JS.slice_0_m3. induction p as [|x p IH]; [done|].
  rewrite string_app_cons. cbn [String.length].
  assert (Hlen : String.length (p +:+ String a (String b (String c ""))) = String.length p + 3).
  { rewrite string_length_app. cbn. lia. }
  rewrite Hlen in *.
  replace (S (String.length p + 3) - 3) with (S (String.length p + 3 - 3)) by lia.
  cbn [substring]. by rewrite IH.
Qed.

Lemma pretty_N_go_head (x : N) :
  forall s, (0 < x)%N ->
  exists d rest, (1 <= d <= 9)%N /\ pretty_N_go x s = String (pretty_N_char d) rest.
Proof.
  induction (N.lt_wf_0 x) as [x _ IH]; intros s Hx.
  rewrite pretty_N_go_step by done.
  destruct (decide (x < 10)%N) as [Hlt|Hge].
  - rewrite N.div_small by done. rewrite pretty_N_go_0.
    exists x, s. split; [lia|]. by rewrite N.mod_small.
  - apply IH; [apply N.div_lt; lia|].
    assert (1 <= x `div` 10)%N by (apply N.div_le_lower_bound; lia). lia.
Qed.

Lemma digitValue_pretty (d : N) :
  (d < 10)%N -> JS.digitValue (pretty_N_char d) = Some (Z.of_N d).
Proof.
  intros Hd.
  assert (d = 0 \/ d = 1 \/ d = 2 \/ d = 3 \/ d = 4 \/ d = 5 \/ d = 6
          \/ d = 7 \/ d = 8 \/ d = 9)%N as Hcases by lia.
  repeat (destruct Hcases as [->|Hcases]; [reflexivity|]). by subst.
Qed.

Lemma parseDigits_pretty (x : N) :
  forall s acc, (0 < x)%N ->
  exists k : nat,
    JS.parseDigits 10 (pretty_N_go x s) acc
    = JS.parseDigits 10 s (Some (default 0 acc * 10 ^ Z.of_nat k + Z.of_N x))%Z.
Proof.
  induction (N.lt_wf_0 x) as [x _ IH]; intros s acc Hx.
  rewrite pretty_N_go_step by done.
  assert (Hmod : (x `mod` 10 < 10)%N) by (apply N.mod_lt; lia).
  pose proof (N.div_mod x 10 ltac:(lia)) as Hdm.
  destruct (decide (x < 10)%N) as [Hlt|Hge].
  - rewrite N.div_small by done. rewrite pretty_N_go_0.
    exists 1%nat. cbn [JS.parseDigits]. rewrite digitValue_pretty by done.
    rewrite N.mod_small by done.
    assert (Hlt' : (Z.of_N x <? 10)%Z = true) by (apply Z.ltb_lt; lia).
    rewrite Hlt'. do 2 f_equal. lia.
  - destruct (IH (x `div` 10)%N) with (s := String (pretty_N_char (x `mod` 10)) s)
      (acc := acc) as [k Hk].
    + apply N.div_lt; lia.
    + assert (1 <= x `div` 10)%N by (apply N.div_le_lower_bound; lia). lia.
    + exists (S k). rewrite Hk. cbn [JS.parseDigits].
      rewrite digitValue_pretty by done.
      assert (Hlt' : (Z.of_N (x `mod` 10) <? 10)%Z = true) by (apply Z.ltb_lt; lia).
      rewrite Hlt'. cbn [default]. do 2 f_equal.
      rewrite Nat2Z.inj_succ, Z.pow_succ_r by lia.
      assert (Z.of_N x = 10 * Z.of_N (x `div` 10) + Z.of_N (x `mod` 10))%Z by lia.
      unfold id. rewrite H. ring.
Qed.

Lemma parseIntText_digit (d : N) (rest : string) :
  (1 <= d <= 9)%N ->
  JS.parseIntText (String (pretty_N_char d) rest)
  = match JS.parseDigits 10 (String (pretty_N_char d) rest) None with
    | Some n => JS.Num (1 * n)
    | None => JS.NaN
    end.
Proof.
  intros Hd.
  assert (d = 1 \/ d = 2 \/ d = 3 \/ d = 4 \/ d = 5 \/ d = 6
          \/ d = 7 \/ d = 8 \/ d = 9)%N as Hcases by lia.
  repeat (destruct Hcases as [->|Hcases]; [reflexivity|]). by subst.
Qed.

Lemma parseIntText_pretty (x : N) :
  (0 < x)%N -> JS.parseIntText (pretty_N_go x "") = JS.Num (Z.of_N x).
Proof.
  intros Hx.
  destruct (pretty_N_go_head x "" Hx) as (d & rest & Hd & Hhead).
  destruct (parseDigits_pretty x "" None Hx) as [k Hk].
  rewrite Hhead in *. rewrite parseIntText_digit, Hk by done.
  cbn. f_equal. lia.
Qed.

Lemma parseInt_secondsText (ms : Z) :
  (1000 <= ms)%Z -> JS.parseInt (Some (JS.secondsText ms)) = JS.Num (ms / 1000).
Proof.
  intros Hms. unfold JS.parseInt, JS.secondsText, JS.toString.
  destruct ms as [|p|p]; try lia.
  unfold pretty, pretty_Z, pretty, pretty_positive, pretty, pretty_N.
  rewrite decide_False by done.
  destruct (pretty_N_go_thousands (N.pos p)) as (a & b & c & Hgo); [lia|].
  rewrite Hgo, slice_0_m3_app, parseIntText_pretty.
  - f_equal. rewrite N2Z.inj_div. done.
  - assert (1 <= N.pos p `div` 1000)%N by (apply N.div_le_lower_bound; lia). lia.
Qed.


Lemma split_nonempty (sep : ascii) (s : string) : JS.split sep s <> [].
Proof.
  destruct s as [|c s]; [done|]. cbn [JS.split].
  destruct (Ascii.eqb c sep); [done|]. by destruct (JS.split sep s).
Qed.

Lemma split_singleton_cons (sep c : ascii) (a : string) :
  JS.split sep (String c a) = [String c a] ->
  Ascii.eqb c sep = false /\ JS.split sep a = [a].
Proof.
  cbn [JS.split]. destruct (Ascii.eqb c sep).
  - intros [=].
  - destruct (JS.split sep a) as [|w ws] eqn:Hs; [by apply split_nonempty in Hs|].
    by intros [= -> ->].
Qed.

Lemma split_app_sep (sep : ascii) (a rest : string) :
  JS.split sep a = [a] ->
  JS.split sep (a +:+ String sep rest) = a :: JS.split sep rest.
Proof.
  induction a as [|c a IH]; intros Ha.
  - change ("" +:+ String sep rest) with (String sep rest).
    cbn [JS.split]. by rewrite Ascii.eqb_refl.
  - apply split_singleton_cons in Ha as [Hc Ha].
    rewrite string_app_cons. cbn [JS.split]. rewrite Hc, (IH Ha). done.
Qed.

Lemma split_pretty_N_go (x : N) :
  forall s, JS.split ":" s = [s] ->
            JS.split ":" (pretty_N_go x s) = [pretty_N_go x s].
Proof.
  induction (N.lt_wf_0 x) as [x _ IH]; intros s Hs.
  destruct (decide (x = 0%N)) as [->|Hx]; [done|].
  rewrite pretty_N_go_step by lia. apply IH; [apply N.div_lt; lia|].
  cbn [JS.split]. rewrite Hs.
  assert (Hmod : (x `mod` 10 < 10)%N) by (apply N.mod_lt; lia).
  generalize dependent (x `mod` 10)%N. intros d Hd.
  assert (d = 0 \/ d = 1 \/ d = 2 \/ d = 3 \/ d = 4 \/ d = 5 \/ d = 6
          \/ d = 7 \/ d = 8 \/ d = 9)%N as Hcases by lia.
  repeat (destruct Hcases as [->|Hcases]; [reflexivity|]). by subst.
Qed.

Lemma secondsText_pretty (ms : Z) :
  (1000 <= ms)%Z ->
  JS.secondsText ms = pretty_N_go (Z.to_N ms `div` 1000) "".
Proof.
  intros Hms. unfold JS.secondsText, JS.toString.
  destruct ms as [|p|p]; try lia.
  unfold pretty, pretty_Z, pretty, pretty_positive, pretty, pretty_N.
  rewrite decide_False by done.
  destruct (pretty_N_go_thousands (N.pos p)) as (a & b & c & Hgo); [lia|].
  by rewrite Hgo, slice_0_m3_app.
Qed.

(** The time component of a challenge issued at clock reading [ms] for an
    address without a colon reads back as the second of that reading. *)
Lemma challenge_time (address : string) (ms : Z) :
  (1000 <= ms)%Z ->
  JS.split ":" address = [address] ->
  JS.parseInt
    (JS.split ":" (address +:+ ":" +:+ JS.secondsText ms +:+ ":starRegistry") !! 1%nat)
  = JS.Num (ms / 1000).
Proof.
  intros Hms Haddr.
  change (":" +:+ JS.secondsText ms +:+ ":starRegistry")
    with (String ":" (JS.secondsText ms +:+ String ":" "starRegistry")).
  rewrite (split_app_sep ":" address _ Haddr).
  rewrite split_app_sep.
  - cbn [lookup list_lookup]. by apply parseInt_secondsText.
  - rewrite secondsText_pretty by done. by apply split_pretty_N_go.
Qed.

(** The decimal text of a natural number reads back as that number, and
    holds no colon. *)
Lemma parseInt_toString (t : Z) :
  (0 <= t)%Z -> JS.parseInt (Some (JS.toString t)) = JS.Num t.
Proof.
  intros Ht. unfold JS.parseInt, JS.toString.
  destruct t as [|p|p]; [reflexivity| |lia].
  unfold pretty, pretty_Z, pretty, pretty_positive, pretty, pretty_N.
  rewrite decide_False by done.
  by rewrite parseIntText_pretty.
Qed.

Lemma split_toString (t : Z) :
  (0 <= t)%Z -> JS.split ":" (JS.toString t) = [JS.toString t].
Proof.
  intros Ht. unfold JS.toString.
  destruct t as [|p|p]; [reflexivity| |lia].
  unfold pretty, pretty_Z, pretty, pretty_positive, pretty, pretty_N.
  rewrite decide_False by done.
  by apply split_pretty_N_go.
Qed.

(** The time component of the message [<address>:<t>:starRegistry], for
    an address without a colon and [t] in decimal, reads back as [t]. *)
Lemma message_time (address : string) (t : Z) :
  (0 <= t)%Z ->
  JS.split ":" address = [address] ->
  JS.parseInt
    (JS.split ":" (address +:+ ":" +:+ JS.toString t +:+ ":starRegistry") !! 1%nat)
  = JS.Num t.
Proof.
  intros Ht Haddr.
  change (":" +:+ JS.toString t +:+ ":starRegistry")
    with (String ":" (JS.toString t +:+ String ":" "starRegistry")).
  rewrite (split_app_sep ":" address _ Haddr).
  rewrite split_app_sep by (by apply split_toString).
  cbn [lookup list_lookup]. by apply parseInt_toString.
Qed.

Local Open Scope list_scope.

(** ** Validation of the chain *)

Section Validation.

Context {BC : BlockClass} {Env : Environment}.

Lemma chain_allocated_entries (s : Store) :
  chain_allocated s -> exists bs, entries_are s bs.
Proof.
  unfold chain_allocated, entries_are.
  induction 1 as [|l ls [b Hb] _ [bs IH]].
  - exists []. constructor.
  - exists (b :: bs). by constructor.
Qed.

Lemma entries_are_allocated (s : Store) (bs : list Block) :
  entries_are s bs -> chain_allocated s.
Proof.
  unfold chain_allocated, entries_are.
  induction 1; constructor; eauto.
Qed.

Lemma entries_are_lookup (s : Store) (bs : list Block) (i : nat) (l : loc) (b : Block) :
  entries_are s bs -> chain s !! i = Some l -> heap s !! l = Some b ->
  bs !! i = Some b.
Proof.
  intros Hbs Hl Hb.
  destruct (Forall2_lookup_l _ _ _ _ _ Hbs Hl) as (b' & Hb' & Hlb).
  congruence.
Qed.

(** The loop reads the store and leaves it as it is; over allocated
    entries it resolves with the error log [errorsFrom] describes. *)
Lemma validateChain_loop_run (s : Store) (rest : list loc) (bs : list Block) :
  Forall2 (fun l b => heap s !! l = Some b) rest bs ->
  forall i errorLog,
    validateChain_loop rest i errorLog s
    = (Resolved (errorLog ++ errorsFrom bs i), s).
Proof.
  induction 1 as [|l b rest' bs' Hl Hrest IH]; intros i errorLog.
  - cbn. unfold Js_ret. by rewrite app_nil_r.
  - cbn [validateChain_loop errorsFrom]. unfold Js_bind at 1, read at 1.
    rewrite Hl.
    destruct (negb (validate b)).
    + rewrite IH. by rewrite <- app_assoc.
    + destruct Hrest as [|ln bn rest'' bs'' Hln Hrest'].
      * apply IH.
      * unfold Js_bind at 1, read at 1. rewrite Hln.
        destruct (loose_neq (hash b) (previousBlockHash bn)).
        -- rewrite IH. by rewrite <- app_assoc.
        -- apply IH.
Qed.

Lemma validateChain_run (s : Store) (bs : list Block) :
  entries_are s bs -> validateChain s = (Resolved (errorsFrom bs 0), s).
Proof.
  intros Hbs. unfold validateChain, Js_bind, get_chain.
  by rewrite (validateChain_loop_run s _ bs Hbs).
Qed.

Lemma validateChain_loop_frame (rest : list loc) :
  forall i errorLog s, snd (validateChain_loop rest i errorLog s) = s.
Proof.
  induction rest as [|l rest' IH]; intros i errorLog s; [done|].
  cbn [validateChain_loop]. unfold Js_bind at 1, read at 1.
  destruct (heap s !! l) as [b|]; [|done].
  destruct (negb (validate b)); [apply IH|].
  destruct rest' as [|ln rest'']; [apply IH|].
  unfold Js_bind at 1, read at 1.
  destruct (heap s !! ln) as [bn|]; [|done].
  destruct (loose_neq _ _); apply IH.
Qed.

(** Validation never changes the store, whatever it settles with. *)
Lemma validateChain_frame (s : Store) : snd (validateChain s) = s.
Proof.
  unfold validateChain, Js_bind, get_chain. apply validateChain_loop_frame.
Qed.

Lemma flagged_cons (b : Block) (bs : list Block) (k : nat) :
  flagged (b :: bs) (S k) = flagged bs k.
Proof. reflexivity. Qed.

Lemma elem_of_errorsFrom (bs : list Block) :
  forall i j, j ∈ errorsFrom bs i <-> (i <= j /\ flagged bs (j - i) = true).
Proof.
  induction bs as [|b bs' IH]; intros i j.
  - cbn. rewrite elem_of_nil. unfold flagged. rewrite lookup_nil.
    split; [done | intros [_ Hf]; discriminate Hf].
  - assert (Hhead : flagged (b :: bs') 0 = true ->
                    errorsFrom (b :: bs') i = i :: errorsFrom bs' (S i)).
    { unfold flagged. cbn. destruct (negb (validate b)); [done|].
      destruct bs' as [|n bs'']; cbn; [done|].
      by destruct (loose_neq _ _). }
    assert (Hskip : flagged (b :: bs') 0 = false ->
                    errorsFrom (b :: bs') i = errorsFrom bs' (S i)).
    { unfold flagged. cbn. destruct (negb (validate b)); [done|].
      destruct bs' as [|n bs'']; cbn; [done|].
      by destruct (loose_neq _ _). }
    destruct (flagged (b :: bs') 0) eqn:Hf.
    + rewrite (Hhead eq_refl), elem_of_cons, IH. split.
      * intros [->|[Hle Hfl]].
        -- split; [lia|]. by rewrite Nat.sub_diag.
        -- split; [lia|].
           replace (j - i) with (S (j - S i)) by lia. by rewrite flagged_cons.
      * intros [Hle Hfl].
        destruct (decide (j = i)) as [->|Hne]; [by left|right].
        split; [lia|].
        replace (j - i) with (S (j - S i)) in Hfl by lia.
        by rewrite flagged_cons in Hfl.
    + rewrite (Hskip eq_refl), IH. split.
      * intros [Hle Hfl]. split; [lia|].
        replace (j - i) with (S (j - S i)) by lia. by rewrite flagged_cons.
      * intros [Hle Hfl].
        destruct (decide (j = i)) as [->|Hne].
        { rewrite Nat.sub_diag in Hfl. congruence. }
        split; [lia|].
        replace (j - i) with (S (j - S i)) in Hfl by lia.
        by rewrite flagged_cons in Hfl.
Qed.

Lemma errorsFrom_sorted (bs : list Block) :
  forall i, Sorted.StronglySorted lt (errorsFrom bs i).
Proof.
  induction bs as [|b bs' IH]; intros i; [constructor|].
  assert (Hcons : Sorted.StronglySorted lt (i :: errorsFrom bs' (S i))).
  { constructor; [apply IH|].
    apply Forall_forall. intros j Hj.
    apply elem_of_errorsFrom in Hj. lia. }
  cbn [errorsFrom].
  destruct (negb (validate b)); [done|].
  destruct bs' as [|n bs'']; [apply IH|].
  destruct (loose_neq _ _); [done | apply IH].
Qed.

Lemma errorsFrom_NoDup (bs : list Block) (i : nat) : NoDup (errorsFrom bs i).
Proof.
  generalize (errorsFrom_sorted bs i).
  induction 1 as [|j js _ IH Hall]; constructor; [|done].
  intros Hin. rewrite Forall_forall in Hall. specialize (Hall _ Hin). lia.
Qed.

Lemma errorsFrom_nil_iff (bs : list Block) :
  errorsFrom bs 0 = [] <-> forall i, flagged bs i = false.
Proof.
  split.
  - intros Hnil i. destruct (flagged bs i) eqn:Hf; [|done].
    assert (Hin : i ∈ errorsFrom bs 0).
    { apply elem_of_errorsFrom. split; [lia|]. by rewrite Nat.sub_0_r. }
    rewrite Hnil in Hin. by apply elem_of_nil in Hin.
  - intros Hall. destruct (errorsFrom bs 0) as [|j js] eqn:He; [done|].
    assert (Hin : j ∈ errorsFrom bs 0) by (rewrite He; left).
    apply elem_of_errorsFrom in Hin as [_ Hf].
    rewrite Nat.sub_0_r, Hall in Hf. done.
Qed.

(** Validation resolves, or is rejected with a TypeError: the only thing
    that can go wrong in it is a reference that is not a Block. *)
Lemma validateChain_loop_outcome (rest : list loc) :
  forall i errorLog s,
    (exists log, fst (validateChain_loop rest i errorLog s) = Resolved log
                 /\ Forall (fun l => is_Some (heap s !! l)) rest)
    \/ fst (validateChain_loop rest i errorLog s) = Rejected TypeError.
Proof.
  induction rest as [|l rest' IH]; intros i errorLog s.
  - left. exists errorLog. by split.
  - cbn [validateChain_loop]. unfold Js_bind, read.
    destruct (heap s !! l) as [b|] eqn:Hl; [|by right].
    assert (Hstep : forall log',
              (exists log, fst (validateChain_loop rest' (S i) log' s) = Resolved log
                           /\ Forall (fun l => is_Some (heap s !! l)) (l :: rest'))
              \/ fst (validateChain_loop rest' (S i) log' s) = Rejected TypeError).
    { intros log'. destruct (IH (S i) log' s) as [(log & Hlog & Hall)|Hrej];
        [left|by right].
      exists log. split; [done|]. constructor; [by eexists | done]. }
    destruct (negb (validate b)); [apply Hstep|].
    destruct rest' as [|ln rest'']; [apply Hstep|].
    destruct (heap s !! ln) as [bn|]; [|by right].
    destruct (loose_neq _ _); apply Hstep.
Qed.

Lemma validateChain_outcome (s : Store) :
  (exists log, fst (validateChain s) = Resolved log /\ chain_allocated s)
  \/ fst (validateChain s) = Rejected TypeError.
Proof.
  unfold validateChain, Js_bind, get_chain, chain_allocated.
  apply validateChain_loop_outcome.
Qed.

Lemma validateChain_resolved_allocated (s : Store) (log : list nat) :
  fst (validateChain s) = Resolved log -> chain_allocated s.
Proof.
  intros Hres.
  destruct (validateChain_outcome s) as [(log' & _ & Hall)|Hrej]; [done|].
  congruence.
Qed.

End Validation.

(** ** Sealing and appending *)

Section Sealing.

Context {BC : BlockClass} {Env : Environment}.

Lemma element_last (arr : list loc) (s : Store) :
  element arr (Z.of_nat (length arr) - 1) s
  = match last arr with
    | Some l => (Resolved l, s)
    | None => (Rejected TypeError, s)
    end.
Proof.
  unfold element. rewrite last_lookup.
  destruct arr as [|a arr'].
  - reflexivity.
  - assert (Hlt : (Z.of_nat (length (a :: arr')) - 1 <? 0)%Z = false).
    { apply Z.ltb_ge. cbn [length]. lia. }
    rewrite Hlt.
    replace (Z.to_nat (Z.of_nat (length (a :: arr')) - 1))
      with (Init.Nat.pred (length (a :: arr'))) by (cbn [length]; lia).
    destruct ((a :: arr') !! Init.Nat.pred (length (a :: arr'))) eqn:Hl; [done|].
    apply lookup_ge_None in Hl. cbn [length] in Hl. cbn in Hl. lia.
Qed.

Lemma bind_read {A} (l : loc) (b : Block) (k : Block -> Js A) (s : Store) :
  heap s !! l = Some b -> (let* x := read l in k x) s = k b s.
Proof. intros Hl. unfold Js_bind, read. by rewrite Hl. Qed.

Lemma bind_write {A} (l : loc) (b : Block) (f : Block -> Block)
      (k : Js A) (s : Store) :
  heap s !! l = Some b ->
  (write l f ;;; k) s
  = k (mkStore (<[l := f b]> (heap s)) (chain s) (chainHeight s) (ticks s)).
Proof. intros Hl. unfold Js_bind, write. by rewrite Hl. Qed.

Lemma bind_now_seconds {A} (k : string -> Js A) (s : Store) :
  (let* t := now_seconds in k t) s
  = k (JS.secondsText (Date_getTime (ticks s)))
      (mkStore (heap s) (chain s) (chainHeight s) (S (ticks s))).
Proof. reflexivity. Qed.

(** The second half of [_addBlock]: digest, validation, push. *)
Lemma seal_and_push_run (s : Store) (block : loc) (b3 : Block) :
  heap s !! block = Some b3 ->
  (let* b := read block in
   write block (set_hash (Some (SHA256_stringify b))) ;;;
   let* errorLogs := validateChain in
   (if (0 <? length errorLogs)%nat then throw (Error "Invalid blockchain")
    else Js_ret tt) ;;;
   chain_push block ;;;
   let* b := read block in
   set_chainHeight (height b) ;;;
   Js_ret block) s
  = let s4 := mkStore (<[block := sealed b3]> (heap s)) (chain s)
                (chainHeight s) (ticks s) in
    match fst (validateChain s4) with
    | Resolved errorLogs =>
        if (0 <? length errorLogs)%nat
        then (Rejected (Error "Invalid blockchain"), s4)
        else (Resolved block,
              mkStore (heap s4) (chain s ++ [block])
                (height (sealed b3)) (ticks s))
    | Rejected e => (Rejected e, s4)
    | Pending => (Pending, s4)
    end.
Proof.
  intros Hb3.
  assert (Hlt : block < length (heap s)) by (eapply lookup_lt_Some; eauto).
  rewrite (bind_read _ _ _ _ Hb3), (bind_write _ _ _ _ _ Hb3).
  fold (sealed b3). cbv zeta.
  set (s4 := mkStore (<[block := sealed b3]> (heap s)) (chain s)
               (chainHeight s) (ticks s)).
  unfold Js_bind at 1.
  pose proof (validateChain_frame s4) as Hframe.
  destruct (validateChain s4) as [[errorLogs|e|] s4']; cbn [fst snd] in *;
    subst s4'; [|done|done].
  destruct (0 <? length errorLogs)%nat; [done|].
  unfold Js_bind at 1. cbn [Js_ret].
  unfold Js_bind at 1. cbn [chain_push].
  assert (Hread : heap s4 !! block = Some (sealed b3)).
  { subst s4. cbn [heap]. by apply list_lookup_insert_eq. }
  unfold Js_bind at 1, read at 1. cbn [heap]. rewrite Hread.
  reflexivity.
Qed.

(** The back-reference step of [_addBlock]. *)
Lemma link_run (arr : list loc) (s : Store) (block : loc) (b1 : Block) :
  heap s !! block = Some b1 ->
  (let* last := element arr (Z.of_nat (length arr) - 1) in
   let* lastBlock := read last in
   write block (set_previousBlockHash (hash lastBlock))) s
  = match last arr ≫= (fun l => heap s !! l) with
    | Some lastBlock =>
        (Resolved tt,
         mkStore (<[block := set_previousBlockHash (hash lastBlock) b1]> (heap s))
           (chain s) (chainHeight s) (ticks s))
    | None => (Rejected TypeError, s)
    end.
Proof.
  intros Hb1. unfold Js_bind at 1. rewrite element_last.
  destruct (last arr) as [l|]; cbn [mbind option_bind]; [|done].
  unfold Js_bind, read.
  destruct (heap s !! l) as [lastBlock|]; [|done].
  unfold write. by rewrite Hb1.
Qed.

(** [_addBlock] in closed form, for an entry that is a Block object. *)
Lemma _addBlock_run (s : Store) (block : loc) (b0 : Block) :
  heap s !! block = Some b0 ->
  _addBlock block s =
    match stamped s b0 with
    | None =>
        (Rejected TypeError,
         stamping s block
           (set_height (Z.of_nat (length (chain s)))
              (set_time (JS.secondsText (Date_getTime (ticks s))) b0)))
    | Some b3 =>
        let s4 := stamping s block (sealed b3) in
        match fst (validateChain s4) with
        | Resolved errorLogs =>
            if (0 <? length errorLogs)%nat
            then (Rejected (Error "Invalid blockchain"), s4)
            else (Resolved block,
                  mkStore (heap s4) (chain s ++ [block])
                    (height (sealed b3)) (ticks s4))
        | Rejected e => (Rejected e, s4)
        | Pending => (Pending, s4)
        end
    end.
Proof.
  intros Hb0.
  assert (Hlt : block < length (heap s)) by (eapply lookup_lt_Some; eauto).
  unfold _addBlock, stamped, stamping.
  remember (JS.secondsText (Date_getTime (ticks s))) as t eqn:Ht.
  remember (Z.of_nat (length (chain s))) as n eqn:Hn.
  rewrite bind_now_seconds, <- Ht.
  erewrite bind_write by (cbn [heap]; exact Hb0). cbn [heap chain chainHeight ticks].
  unfold Js_bind at 1, get_chain at 1. cbn [heap chain chainHeight ticks].
  erewrite bind_write by (cbn [heap]; by apply list_lookup_insert_eq).
  cbn [heap chain chainHeight ticks].
  rewrite list_insert_insert_eq, <- Hn.
  remember (set_height n (set_time t b0)) as b1 eqn:Hb1.
  assert (Hread1 : <[block := b1]> (heap s) !! block = Some b1)
    by (by apply list_lookup_insert_eq).
  erewrite bind_read by (cbn [heap]; exact Hread1).
  destruct (isGenesisBlock b1) eqn:Hgen; cbn [negb].
  - unfold Js_bind at 1. cbn [Js_ret].
    erewrite seal_and_push_run by (cbn [heap]; exact Hread1).
    cbn [heap chain chainHeight ticks]. by rewrite list_insert_insert_eq.
  - unfold Js_bind at 1. rewrite Hn.
    erewrite link_run by (cbn [heap]; exact Hread1).
    cbn [heap chain chainHeight ticks].
    destruct (last (chain s)) as [l|] eqn:Hlast; cbn [mbind option_bind]; [|done].
    assert (Hhash : hash <$> (<[block := b1]> (heap s) !! l)
                    = hash <$> (heap s !! l)).
    { destruct (decide (block = l)) as [<-|Hne].
      - rewrite Hread1, Hb0, Hb1. reflexivity.
      - by rewrite list_lookup_insert_ne. }
    destruct (<[block := b1]> (heap s) !! l) as [lastBlock|] eqn:Hlb;
      destruct (heap s !! l) as [lastBlock0|] eqn:Hlb0;
      cbn in Hhash; try discriminate; cbn [mbind option_bind]; [|done].
    injection Hhash as Hhash.
    rewrite list_insert_insert_eq.
    erewrite seal_and_push_run
      by (cbn [heap]; by apply list_lookup_insert_eq).
    cbn [heap chain chainHeight ticks].
    rewrite list_insert_insert_eq, Hhash. reflexivity.
Qed.

(** Stamping an entry that the chain does not hold leaves the entries of
    the chain as they are. *)
Lemma entries_are_stamping (s : Store) (block : loc) (b : Block) (bs : list Block) :
  block ∉ chain s -> entries_are s bs -> entries_are (stamping s block b) bs.
Proof.
  unfold entries_are, stamping. cbn [heap chain].
  intros Hfresh Hbs. induction Hbs as [|l b' ls bs' Hl _ IH]; [constructor|].
  apply not_elem_of_cons in Hfresh as [Hne Hfresh].
  constructor; [|by apply IH].
  rewrite list_lookup_insert_ne; done.
Qed.

Lemma stamped_is_Some (s : Store) (b0 : Block) :
  chain_allocated s -> chain s <> [] -> is_Some (stamped s b0).
Proof.
  intros Hall Hne. unfold stamped.
  destruct (isGenesisBlock _); [by eexists|].
  destruct (last (chain s)) as [l|] eqn:Hlast.
  - cbn [mbind option_bind].
    assert (Hin : l ∈ chain s).
    { rewrite last_lookup in Hlast. by eapply list_elem_of_lookup_2. }
    unfold chain_allocated in Hall. rewrite Forall_forall in Hall.
    destruct (Hall l Hin) as [lastBlock ->]. by eexists.
  - by apply last_None in Hlast.
Qed.

(** The stamps, field by field. *)
Lemma stamped_fields (s : Store) (b0 b3 : Block) :
  stamped s b0 = Some b3 ->
  time b3 = JS.secondsText (Date_getTime (ticks s))
  /\ height b3 = Z.of_nat (length (chain s))
  /\ hash b3 = hash b0
  /\ body b3 = body b0
  /\ (if isGenesisBlock
           (set_height (Z.of_nat (length (chain s)))
              (set_time (JS.secondsText (Date_getTime (ticks s))) b0))
      then previousBlockHash b3 = previousBlockHash b0
      else exists l lastBlock,
          last (chain s) = Some l /\ heap s !! l = Some lastBlock
          /\ previousBlockHash b3 = hash lastBlock).
Proof.
  unfold stamped. intros Hst.
  destruct (isGenesisBlock _).
  - injection Hst as <-. done.
  - destruct (last (chain s)) as [l|]; cbn in Hst; [|done].
    destruct (heap s !! l) as [lastBlock|] eqn:Hlb; cbn in Hst; [|done].
    injection Hst as <-. do 4 (split; [done|]). by exists l, lastBlock.
Qed.

End Sealing.

(** ** The two parts of sealing and appending *)

Section Phases.

Context {BC : BlockClass} {Env : Environment}.

Lemma seal_run (s : Store) (block : loc) (b3 : Block) :
  heap s !! block = Some b3 ->
  (let* b := read block in
   write block (set_hash (Some (SHA256_stringify b)))) s
  = (Resolved tt,
     mkStore (<[block := sealed b3]> (heap s)) (chain s) (chainHeight s) (ticks s)).
Proof.
  intros Hb3. rewrite (bind_read _ _ _ _ Hb3). unfold write. by rewrite Hb3.
Qed.

(** The part before the [await], in closed form. *)
Lemma _addBlock_begin_run (s : Store) (block : loc) (b0 : Block) :
  heap s !! block = Some b0 ->
  _addBlock_begin block s =
    match stamped s b0 with
    | None =>
        (Rejected TypeError,
         stamping s block
           (set_height (Z.of_nat (length (chain s)))
              (set_time (JS.secondsText (Date_getTime (ticks s))) b0)))
    | Some b3 => (Resolved tt, stamping s block (sealed b3))
    end.
Proof.
  intros Hb0.
  assert (Hlt : block < length (heap s)) by (eapply lookup_lt_Some; eauto).
  unfold _addBlock_begin, stamped, stamping.
  remember (JS.secondsText (Date_getTime (ticks s))) as t eqn:Ht.
  remember (Z.of_nat (length (chain s))) as n eqn:Hn.
  rewrite bind_now_seconds, <- Ht.
  erewrite bind_write by (cbn [heap]; exact Hb0). cbn [heap chain chainHeight ticks].
  unfold Js_bind at 1, get_chain at 1. cbn [heap chain chainHeight ticks].
  erewrite bind_write by (cbn [heap]; by apply list_lookup_insert_eq).
  cbn [heap chain chainHeight ticks].
  rewrite list_insert_insert_eq, <- Hn.
  remember (set_height n (set_time t b0)) as b1 eqn:Hb1.
  assert (Hread1 : <[block := b1]> (heap s) !! block = Some b1)
    by (by apply list_lookup_insert_eq).
  erewrite bind_read by (cbn [heap]; exact Hread1).
  destruct (isGenesisBlock b1) eqn:Hgen; cbn [negb].
  - unfold Js_bind at 1. cbn [Js_ret].
    erewrite seal_run by (cbn [heap]; exact Hread1).
    cbn [heap chain chainHeight ticks]. by rewrite list_insert_insert_eq.
  - unfold Js_bind at 1. rewrite Hn.
    erewrite link_run by (cbn [heap]; exact Hread1).
    cbn [heap chain chainHeight ticks].
    destruct (last (chain s)) as [l|] eqn:Hlast; cbn [mbind option_bind]; [|done].
    assert (Hhash : hash <$> (<[block := b1]> (heap s) !! l)
                    = hash <$> (heap s !! l)).
    { destruct (decide (block = l)) as [<-|Hne].
      - rewrite Hread1, Hb0, Hb1. reflexivity.
      - by rewrite list_lookup_insert_ne. }
    destruct (<[block := b1]> (heap s) !! l) as [lastBlock|] eqn:Hlb;
      destruct (heap s !! l) as [lastBlock0|] eqn:Hlb0;
      cbn in Hhash; try discriminate; cbn [mbind option_bind]; [|done].
    injection Hhash as Hhash.
    rewrite list_insert_insert_eq.
    erewrite seal_run by (cbn [heap]; by apply list_lookup_insert_eq).
    cbn [heap chain chainHeight ticks].
    rewrite list_insert_insert_eq, Hhash. reflexivity.
Qed.

Lemma _addBlock_begin_dangling (s : Store) (block : loc) :
  heap s !! block = None -> _addBlock_begin block s = (Rejected TypeError, tick s).
Proof.
  intros Hb0. unfold _addBlock_begin. rewrite bind_now_seconds.
  unfold Js_bind, write. cbn [heap]. by rewrite Hb0.
Qed.

(** The part after the [await], in closed form. *)
Lemma _addBlock_commit_run (s : Store) (block : loc) (b : Block)
      (errorLogs : list nat) :
  heap s !! block = Some b ->
  _addBlock_commit block errorLogs s
  = if (0 <? length errorLogs)%nat
    then (Rejected (Error "Invalid blockchain"), s)
    else (Resolved block,
          mkStore (heap s) (chain s ++ [block]) (height b) (ticks s)).
Proof.
  intros Hb. unfold _addBlock_commit.
  destruct (0 <? length errorLogs)%nat; [done|].
  unfold Js_bind, Js_ret, chain_push, read. cbn [heap]. by rewrite Hb.
Qed.

(** A call of [_addBlock] on its own is the first part, the validation of
    the chain, and the second part. *)
Lemma _addBlock_phases (block : loc) (s : Store) :
  _addBlock block s
  = (_addBlock_begin block ;;;
     let* errorLogs := validateChain in
     _addBlock_commit block errorLogs) s.
Proof.
  destruct (heap s !! block) as [b0|] eqn:Hb0.
  - rewrite (_addBlock_run s block b0 Hb0).
    unfold Js_bind at 1. rewrite (_addBlock_begin_run s block b0 Hb0).
    destruct (stamped s b0) as [b3|]; [|done]. cbv zeta.
    assert (Hread : heap (stamping s block (sealed b3)) !! block = Some (sealed b3)).
    { cbn [heap stamping]. apply list_lookup_insert_eq. by eapply lookup_lt_Some. }
    unfold Js_bind.
    pose proof (validateChain_frame (stamping s block (sealed b3))) as Hframe.
    destruct (validateChain (stamping s block (sealed b3)))
      as [[errorLogs|e|] s4']; cbn [fst snd] in *; subst s4'; [|done|done].
    by rewrite (_addBlock_commit_run _ block _ errorLogs Hread).
  - unfold Js_bind at 1. rewrite (_addBlock_begin_dangling s block Hb0).
    unfold _addBlock. rewrite bind_now_seconds.
    unfold Js_bind, write. cbn [heap]. by rewrite Hb0.
Qed.

(** Case analysis on everything an equation between outcomes branches
    on. *)
Ltac cases_in H :=
  repeat (cbn beta iota zeta in H;
          match type of H with
          | context [match ?x with _ => _ end] => destruct x
          end);
  try discriminate H.

(** Two calls made in the same turn that both resolve: what they leave. *)
Lemma _addBlock_overlapping_run (s s' : Store) (blockA blockB : loc) :
  blockA <> blockB ->
  _addBlock_overlapping blockA blockB s
  = ((Resolved blockA, Resolved blockB), s') ->
  exists a0 b0 a3 b3,
    heap s !! blockA = Some a0 /\ heap s !! blockB = Some b0
    /\ stamped s a0 = Some a3
    /\ stamped (stamping s blockA (sealed a3)) b0 = Some b3
    /\ fst (validateChain
              (stamping (stamping s blockA (sealed a3)) blockB (sealed b3)))
       = Resolved []
    /\ s' = mkStore (<[blockB := sealed b3]> (<[blockA := sealed a3]> (heap s)))
              (chain s ++ [blockA; blockB]) (height b3) (S (S (ticks s))).
Proof.
  intros Hne Hrun. unfold _addBlock_overlapping in Hrun.
  destruct (heap s !! blockA) as [a0|] eqn:Ha0.
  2:{ rewrite (_addBlock_begin_dangling s blockA Ha0) in Hrun.
      by cases_in Hrun. }
  rewrite (_addBlock_begin_run s blockA a0 Ha0) in Hrun.
  destruct (stamped s a0) as [a3|] eqn:Ha3.
  2:{ by cases_in Hrun. }
  set (s1 := stamping s blockA (sealed a3)) in *.
  destruct (heap s1 !! blockB) as [b0|] eqn:Hb0.
  2:{ rewrite (_addBlock_begin_dangling s1 blockB Hb0) in Hrun.
      by cases_in Hrun. }
  rewrite (_addBlock_begin_run s1 blockB b0 Hb0) in Hrun.
  destruct (stamped s1 b0) as [b3|] eqn:Hb3.
  2:{ by cases_in Hrun. }
  set (s2 := stamping s1 blockB (sealed b3)) in *.
  assert (HA2 : heap s2 !! blockA = Some (sealed a3)).
  { cbn [heap s2 s1 stamping]. rewrite list_lookup_insert_ne by done.
    apply list_lookup_insert_eq. by eapply lookup_lt_Some. }
  assert (HB2 : heap s2 !! blockB = Some (sealed b3)).
  { cbn [heap s2 stamping]. apply list_lookup_insert_eq. by eapply lookup_lt_Some. }
  cbn beta iota zeta in Hrun.
  destruct (fst (validateChain s2)) as [log| |] eqn:Hval;
    [|discriminate Hrun..].
  rewrite (_addBlock_commit_run s2 blockA _ log HA2) in Hrun.
  destruct (0 <? length log)%nat eqn:Hlog; [by cases_in Hrun|].
  match type of Hrun with context [_addBlock_commit blockB log ?x] =>
    rewrite (_addBlock_commit_run x blockB (sealed b3) log HB2) in Hrun end.
  rewrite Hlog in Hrun. injection Hrun as <-.
  destruct log as [|? ?]; [|done].
  exists a0, b0, a3, b3.
  assert (Hb0' : heap s !! blockB = Some b0).
  { cbn [heap s1 stamping] in Hb0. by rewrite list_lookup_insert_ne in Hb0. }
  do 5 (split; [done|]).
  cbn [heap chain chainHeight ticks s2 s1 stamping sealed set_hash height].
  by rewrite <- app_assoc.
Qed.

(** One successful call, of an entry that the chain does not hold, puts
    the entry at the end of the chain and keeps heights equal to indices
    and [this.height] equal to the last index. *)
Lemma addBlock_keeps_shape (s s' : Store) (block : loc) :
  block ∉ chain s ->
  _addBlock block s = (Resolved block, s') ->
  chain s' = chain s ++ [block]
  /\ (chain_allocated s -> chain_allocated s')
  /\ (heights_are_indices s -> heights_are_indices s')
  /\ height_is_last_index s'.
Proof.
  intros Hfresh Hrun.
  destruct (heap s !! block) as [b0|] eqn:Hb0.
  2:{ unfold _addBlock in Hrun. rewrite bind_now_seconds in Hrun.
      unfold Js_bind, write in Hrun. cbn [heap] in Hrun.
      by rewrite Hb0 in Hrun. }
  rewrite (_addBlock_run s block b0 Hb0) in Hrun.
  destruct (stamped s b0) as [b3|] eqn:Hb3; [|done]. cbv zeta in Hrun.
  destruct (stamped_fields s b0 b3 Hb3) as (_ & Hh & _).
  destruct (fst (validateChain _)) as [log| |]; [|done|done].
  destruct (0 <? length log)%nat; [done|]. injection Hrun as <-.
  assert (Hlt : block < length (heap s)) by (by eapply lookup_lt_Some).
  split; [done|]. split; [|split].
  - unfold chain_allocated. cbn [heap chain stamping]. intros Hall.
    apply Forall_app. split.
    + eapply Forall_impl; [exact Hall|]. intros l [b Hb].
      apply lookup_lt_is_Some. rewrite length_insert.
      by eapply lookup_lt_Some.
    + constructor; [|constructor].
      apply lookup_lt_is_Some. by rewrite length_insert.
  - intros Hs i l b Hl Hb. cbn [heap chain stamping] in *.
    destruct (decide (i < length (chain s))) as [Hi|Hi].
    + rewrite lookup_app_l in Hl by done.
      assert (l <> block).
      { intros ->. apply Hfresh. by eapply list_elem_of_lookup_2. }
      rewrite list_lookup_insert_ne in Hb by done. by eapply Hs.
    + rewrite lookup_app_r in Hl by lia.
      destruct (i - length (chain s)) as [|k] eqn:Hk; [|done].
      injection Hl as <-. rewrite list_lookup_insert_eq in Hb by done.
      injection Hb as <-. cbn [height sealed set_hash]. rewrite Hh.
      f_equal. lia.
  - unfold height_is_last_index. cbn [chain chainHeight sealed set_hash height].
    rewrite Hh, length_app. cbn [length]. lia.
Qed.

End Phases.

(** ** What validation reports, and what a broken chain does to an append *)

Section ChainClaims.

Context {BC : BlockClass} {Env : Environment}.

Lemma occurs_once (l : list nat) (i : nat) :
  NoDup l -> i ∈ l -> length (filter (fun j => j = i) l) = 1.
Proof.
  induction 1 as [|j js Hnotin Hnd IH]; intros Hin.
  - by apply elem_of_nil in Hin.
  - rewrite filter_cons. destruct (decide (j = i)) as [->|Hne].
    + cbn [length]. f_equal.
      destruct (filter (fun j => j = i) js) as [|k ks] eqn:Hf; [done|].
      assert (Hk : k ∈ filter (fun j => j = i) js) by (rewrite Hf; left).
      apply list_elem_of_filter in Hk as [-> Hk]. done.
    + apply elem_of_cons in Hin as [->|Hin]; [done|]. by apply IH.
Qed.

(** C7: when the successor of entry [i] refers back to a digest other than
    that of entry [i], the error list holds index [i], whether or not
    entry [i] passes its own validation; and the mismatch does not put
    [i + 1] on the list: that index is there only for a fault of entry
    [i + 1] itself or of its own successor's back-reference. *)
Theorem validateChain_reports_predecessor
    (s : Store) (i : nat) (l lnext : loc) (b bnext : Block) :
  chain_allocated s ->
  chain s !! i = Some l ->
  chain s !! S i = Some lnext ->
  heap s !! l = Some b ->
  heap s !! lnext = Some bnext ->
  previousBlockHash bnext <> hash b ->
  exists errorLog,
    validateChain s = (Resolved errorLog, s)
    /\ i ∈ errorLog
    /\ (S i ∈ errorLog ->
        validate bnext = false
        \/ exists l2 b2,
            chain s !! S (S i) = Some l2 /\ heap s !! l2 = Some b2
            /\ previousBlockHash b2 <> hash bnext).
Proof.
  intros Hall Hl Hln Hb Hbn Hne.
  destruct (chain_allocated_entries s Hall) as [bs Hbs].
  exists (errorsFrom bs 0). split; [by apply validateChain_run|].
  pose proof (entries_are_lookup s bs i l b Hbs Hl Hb) as Hbi.
  pose proof (entries_are_lookup s bs (S i) lnext bnext Hbs Hln Hbn) as Hbsi.
  split.
  - apply elem_of_errorsFrom. split; [lia|].
    rewrite Nat.sub_0_r. unfold flagged. rewrite Hbi, Hbsi.
    destruct (negb (validate b)); [done|].
    unfold loose_neq. rewrite bool_decide_false; [done | congruence].
  - intros Hin. apply elem_of_errorsFrom in Hin as [_ Hf].
    rewrite Nat.sub_0_r in Hf. unfold flagged in Hf. rewrite Hbsi in Hf.
    destruct (validate bnext); [right | by left]. cbn [negb] in Hf.
    destruct (bs !! S (S i)) as [b2|] eqn:Hb2; [|done].
    destruct (Forall2_lookup_r _ _ _ _ _ Hbs Hb2) as (l2 & Hl2 & Hlb2).
    exists l2, b2. repeat split; [done..|].
    unfold loose_neq in Hf. apply negb_true_iff, bool_decide_eq_false in Hf.
    congruence.
Qed.

(** C9: the back-reference of the successor is looked at only for an
    entry that passes its own validation, so the error list is the
    strictly increasing list of the flagged indices: no index is reported
    twice, and an entry that is both invalid and followed by a mismatching
    back-reference is reported exactly once. *)
Theorem validateChain_reports_each_index_once (s : Store) :
  chain_allocated s ->
  exists errorLog bs,
    entries_are s bs
    /\ validateChain s = (Resolved errorLog, s)
    /\ StronglySorted lt errorLog
    /\ NoDup errorLog
    /\ (forall i, i ∈ errorLog <-> flagged bs i = true)
    /\ (forall i b n,
          bs !! i = Some b -> bs !! S i = Some n ->
          validate b = false -> previousBlockHash n <> hash b ->
          length (filter (fun j => j = i) errorLog) = 1).
Proof.
  intros Hall.
  destruct (chain_allocated_entries s Hall) as [bs Hbs].
  exists (errorsFrom bs 0), bs.
  assert (Hmem : forall i, i ∈ errorsFrom bs 0 <-> flagged bs i = true).
  { intros i. rewrite elem_of_errorsFrom, Nat.sub_0_r. split; [by intros [_ ?]|].
    intros Hf. split; [lia | done]. }
  split; [done|]. split; [by apply validateChain_run|].
  split; [apply errorsFrom_sorted|]. split; [apply errorsFrom_NoDup|].
  split; [done|].
  intros i b n Hb Hn Hinv _.
  apply occurs_once; [apply errorsFrom_NoDup|].
  apply Hmem. unfold flagged. by rewrite Hb, Hinv.
Qed.

(** C5: when validation of the chain as it stands reports at least one
    index, sealing and appending an entry that is not already in the chain
    is rejected with the "Invalid blockchain" error, and neither the
    sequence of entries, nor the height, nor any entry of the chain has
    changed. *)
Theorem addBlock_refuses_broken_chain
    (s : Store) (block : loc) (errorLog : list nat) :
  is_Some (heap s !! block) ->
  block ∉ chain s ->
  fst (validateChain s) = Resolved errorLog ->
  errorLog <> [] ->
  exists s',
    _addBlock block s = (Rejected ChainCorruptedError, s')
    /\ chain s' = chain s
    /\ chainHeight s' = chainHeight s
    /\ (forall l, l ∈ chain s -> heap s' !! l = heap s !! l).
Proof.
  intros [b0 Hb0] Hfresh Hval Hne.
  pose proof (validateChain_resolved_allocated s errorLog Hval) as Hall.
  destruct (chain_allocated_entries s Hall) as [bs Hbs].
  rewrite (validateChain_run s bs Hbs) in Hval. injection Hval as <-.
  assert (Hchain : chain s <> []).
  { intros Hnil. unfold entries_are in Hbs. rewrite Hnil in Hbs.
    apply Forall2_nil_inv_l in Hbs. subst bs. done. }
  destruct (stamped_is_Some s b0 Hall Hchain) as [b3 Hb3].
  exists (stamping s block (sealed b3)).
  rewrite (_addBlock_run s block b0 Hb0), Hb3. cbv zeta.
  rewrite (validateChain_run _ bs (entries_are_stamping s block _ bs Hfresh Hbs)).
  cbn [fst].
  destruct (errorsFrom bs 0) as [|j js]; [done|]. cbn [length Nat.ltb Nat.leb].
  repeat split. intros l Hl. unfold stamping. cbn [heap].
  apply list_lookup_insert_ne. intros ->. done.
Qed.

(** C10: whenever sealing and appending is rejected with the "Invalid
    blockchain" error, the chain and the height are as before, but the
    entry passed in is not: it carries the timestamp, the height, the
    back-reference (unless it is a genesis entry) and the digest that were
    stamped on it before validation ran, and so differs from the unsealed
    entry the caller handed over. *)
Theorem addBlock_rejection_leaves_stamps (s s' : Store) (block : loc) :
  _addBlock block s = (Rejected ChainCorruptedError, s') ->
  chain s' = chain s
  /\ chainHeight s' = chainHeight s
  /\ exists b0 b',
      heap s !! block = Some b0
      /\ heap s' !! block = Some b'
      /\ time b' = JS.secondsText (Date_getTime (ticks s))
      /\ height b' = Z.of_nat (length (chain s))
      /\ (if isGenesisBlock
               (set_height (Z.of_nat (length (chain s)))
                  (set_time (JS.secondsText (Date_getTime (ticks s))) b0))
          then previousBlockHash b' = previousBlockHash b0
          else exists l lastBlock,
              last (chain s) = Some l /\ heap s !! l = Some lastBlock
              /\ previousBlockHash b' = hash lastBlock)
      /\ hash b' = Some (SHA256_stringify (set_hash (hash b0) b'))
      /\ (hash b0 = None -> b' <> b0).
Proof.
  intros Hrej.
  destruct (heap s !! block) as [b0|] eqn:Hb0.
  2: { unfold _addBlock in Hrej. rewrite bind_now_seconds in Hrej.
       unfold Js_bind, write in Hrej. cbn [heap] in Hrej.
       rewrite Hb0 in Hrej. discriminate Hrej. }
  assert (Hlt : block < length (heap s)) by (eapply lookup_lt_Some; eauto).
  rewrite (_addBlock_run s block b0 Hb0) in Hrej.
  destruct (stamped s b0) as [b3|] eqn:Hb3; [|discriminate Hrej].
  cbv zeta in Hrej.
  destruct (validateChain_outcome (stamping s block (sealed b3)))
    as [(log & Hlog & _)|Hty]; rewrite ?Hlog, ?Hty in Hrej;
    [|discriminate Hrej].
  destruct (0 <? length log)%nat; [|discriminate Hrej].
  injection Hrej as <-.
  destruct (stamped_fields s b0 b3 Hb3) as (Ht & Hh & Hhash & _ & Hprev).
  split; [done|]. split; [done|].
  exists b0, (sealed b3). split; [done|].
  split; [by apply list_lookup_insert_eq|].
  split; [done|]. split; [done|]. split; [done|].
  split.
  - cbn. f_equal. f_equal. rewrite <- Hhash. by destruct b3.
  - intros Hnone Heq. rewrite <- Heq in Hnone. discriminate Hnone.
Qed.

End ChainClaims.

(** ** Submitting a star *)

Section SubmitStar.

Context {BC : BlockClass} {Env : Environment}.

(** The time check of [submitStar]: one reading of the clock, then either
    the rejection or the rest of the method. *)
Lemma submitStar_window (address message signature : string) (star : Star)
      (s : Store) :
  submitStar address message signature star s
  = if JS.gt (elapsedTime s message) (JS.Num MesgTimeLimitSec)
    then (Rejected ChallengeExpiredError, tick s)
    else verify_and_append address message signature star (tick s).
Proof.
  unfold submitStar. rewrite bind_now_seconds. fold (tick s).
  fold (elapsedTime s message).
  by destruct (JS.gt (elapsedTime s message) (JS.Num MesgTimeLimitSec)).
Qed.

(** The rest of the method, by the verdict of the verifier. *)
Lemma verify_and_append_run (address message signature : string) (star : Star)
      (s : Store) :
  verify_and_append address message signature star s
  = match bitcoinMessage_verify message address signature with
    | Throws e => (Rejected (Thrown e), s)
    | Returns false => (Rejected SignatureInvalidError, s)
    | Returns true =>
        match _addBlock (length (heap s))
                (mkStore (heap s ++ [Block_new (StarData address star)])
                   (chain s) (chainHeight s) (ticks s)) with
        | (Resolved _, s2) => (Resolved (length (heap s)), s2)
        | (Rejected e, s2) => (Rejected e, s2)
        | (Pending, s2) => (Pending, s2)
        end
    end.
Proof.
  unfold verify_and_append. unfold Js_bind at 1.
  destruct (bitcoinMessage_verify message address signature) as [[|]|e];
    cbn [call Js_ret throw negb]; [|done|done].
  unfold Js_bind at 1. cbn [alloc]. unfold Js_bind at 1.
  by destruct (_addBlock _ _) as [[?|?|] ?].
Qed.

Lemma ChallengeExpiredError_text :
  ChallengeExpiredError
  = Error "Rejected: Exceed time limit of more than 300 secs".
Proof. vm_compute. reflexivity. Qed.

(** Sealing and appending rejects with a TypeError or with the "Invalid
    blockchain" error, and with nothing else; it always settles. *)
Lemma addBlock_outcome (s : Store) (block : loc) :
  match fst (_addBlock block s) with
  | Resolved l => l = block
  | Rejected e => e = TypeError \/ e = ChainCorruptedError
  | Pending => False
  end.
Proof.
  destruct (heap s !! block) as [b0|] eqn:Hb0.
  - rewrite (_addBlock_run s block b0 Hb0).
    destruct (stamped s b0) as [b3|]; [|by left]. cbv zeta.
    destruct (validateChain_outcome (stamping s block (sealed b3)))
      as [(log & -> & _)| ->]; [|by left].
    destruct (0 <? length log)%nat; [by right | done].
  - unfold _addBlock. rewrite bind_now_seconds.
    unfold Js_bind, write. cbn [heap]. rewrite Hb0. by left.
Qed.

(** The part of [submitStar] after the time check never rejects with the
    error of the time check. *)
Lemma verify_and_append_not_expired (address message signature : string)
      (star : Star) (s : Store) :
  fst (verify_and_append address message signature star s)
  <> Rejected ChallengeExpiredError.
Proof.
  rewrite verify_and_append_run, ChallengeExpiredError_text.
  destruct (bitcoinMessage_verify message address signature) as [[|]|e];
    [|discriminate..].
  match goal with |- context [_addBlock ?l ?s1] =>
    pose proof (addBlock_outcome s1 l) as Hout;
    destruct (_addBlock l s1) as [[?|e|] ?] end; cbn [fst] in *;
    [discriminate| |done].
  destruct Hout as [-> | ->]; discriminate.
Qed.

(** [elapsedTime] when both the clock and the message give a number. *)
Lemma elapsedTime_number (s : Store) (message : string) (now t : Z) :
  JS.parseInt (Some (JS.secondsText (Date_getTime (ticks s)))) = JS.Num now ->
  JS.parseInt (JS.split ":" message !! 1%nat) = JS.Num t ->
  elapsedTime s message = JS.Num (now - t).
Proof. intros Hnow Ht. unfold elapsedTime. by rewrite Hnow, Ht. Qed.

(** C4 (as amended): for the message [<address>:<t>:starRegistry] with
    an address that holds no colon and the second [t] in decimal,
    submitted when the clock reads [ms] milliseconds (at least 1000), the
    elapsed time is [ms / 1000 - t], and the call is rejected with the
    time-limit error exactly when that is more than 300.  Otherwise (at
    200 seconds, and also when the elapsed time is negative) the call
    goes on to verification and append, whose outcome is the outcome of
    the call. *)
Theorem submitStar_expired_iff
    (address signature : string) (star : Star) (s : Store) (t : Z) :
  (1000 <= Date_getTime (ticks s))%Z ->
  (0 <= t)%Z ->
  JS.split ":" address = [address] ->
  let message := (address +:+ ":" +:+ JS.toString t +:+ ":starRegistry")%string in
  let elapsed := (Date_getTime (ticks s) / 1000 - t)%Z in
  elapsedTime s message = JS.Num elapsed
  /\ (fst (submitStar address message signature star s)
        = Rejected ChallengeExpiredError
      <-> (elapsed > 300)%Z)
  /\ ((elapsed > 300)%Z ->
      submitStar address message signature star s
      = (Rejected (Error "Rejected: Exceed time limit of more than 300 secs"),
         tick s))
  /\ ((elapsed <= 300)%Z ->
      submitStar address message signature star s
      = verify_and_append address message signature star (tick s)).
Proof.
  intros Hms Ht Haddr message elapsed.
  assert (Hel : elapsedTime s message = JS.Num elapsed).
  { unfold elapsedTime. subst message.
    by rewrite (parseInt_secondsText _ Hms), (message_time address t Ht Haddr). }
  split; [done|].
  rewrite submitStar_window, Hel. cbn [JS.gt].
  change MesgTimeLimitSec with 300%Z.
  destruct (Z.ltb_spec 300 elapsed) as [Hgt|Hle].
  - split; [split; [lia | done]|]. split; [|lia].
    intros _. by rewrite ChallengeExpiredError_text.
  - split; [|split; [lia | done]]. split; [|lia].
    intros Hrej. by apply verify_and_append_not_expired in Hrej.
Qed.

(** X8: a challenge issued for an address without a colon when the clock read
    [ms1] milliseconds, and submitted when it reads [ms2], is rejected for
    its age exactly when more than 300 whole seconds lie between the two
    readings. *)
Lemma challenge_window
    (address message signature : string) (star : Star) (s1 s2 : Store) :
  (1000 <= Date_getTime (ticks s1))%Z ->
  (1000 <= Date_getTime (ticks s2))%Z ->
  JS.split ":" address = [address] ->
  fst (requestMessageOwnershipVerification address s1) = Resolved message ->
  fst (submitStar address message signature star s2)
    = Rejected ChallengeExpiredError
  <-> (Date_getTime (ticks s2) / 1000 - Date_getTime (ticks s1) / 1000 > 300)%Z.
Proof.
  intros Hms1 Hms2 Haddr Hreq.
  unfold requestMessageOwnershipVerification in Hreq.
  rewrite bind_now_seconds in Hreq. injection Hreq as <-.
  rewrite submitStar_window.
  rewrite (elapsedTime_number s2 _ _ _ (parseInt_secondsText _ Hms2)
             (challenge_time address _ Hms1 Haddr)).
  cbn [JS.gt]. change MesgTimeLimitSec with 300%Z.
  destruct (Z.ltb_spec 300 (Date_getTime (ticks s2) / 1000
                            - Date_getTime (ticks s1) / 1000)) as [Hgt|Hle].
  - split; [lia | done].
  - split; [|lia].
    intros Hrej. by apply verify_and_append_not_expired in Hrej.
Qed.

(** C1 (as amended): when the time component of the message does not
    parse, no error is raised for it: the time check lets the call
    through, and the call is exactly the verification-and-append part of
    the method, so that a signature the verifier refuses is what rejects
    the call. *)
Theorem submitStar_unparsable_time_is_verified
    (address message signature : string) (star : Star) (s : Store) :
  JS.parseInt (JS.split ":" message !! 1%nat) = JS.NaN ->
  submitStar address message signature star s
  = verify_and_append address message signature star (tick s)
  /\ (bitcoinMessage_verify message address signature = Returns false ->
      fst (submitStar address message signature star s)
      = Rejected SignatureInvalidError)
  /\ (bitcoinMessage_verify message address signature = Returns true ->
      submitStar address message signature star s
      = (let* block := alloc (Block_new (StarData address star)) in
         _addBlock block ;;; Js_ret block) (tick s)).
Proof.
  intros Hnan.
  assert (Hrun : submitStar address message signature star s
                 = verify_and_append address message signature star (tick s)).
  { rewrite submitStar_window. unfold elapsedTime. rewrite Hnan.
    by destruct (JS.parseInt (Some _)). }
  split; [done|]. rewrite Hrun. split; intros Hv.
  - by rewrite verify_and_append_run, Hv.
  - unfold verify_and_append. unfold Js_bind at 1. by rewrite Hv.
Qed.

(** C8 (as amended): in a call that passes the time check, a verifier
    that returns false makes the call reject with the "Message
    verification failed" error, and a verifier that raises makes it reject
    with the verifier's own error; in both cases the heap, the sequence of
    entries and the height are what they were. *)
Theorem submitStar_verification_failure
    (address message signature : string) (star : Star) (s : Store) :
  JS.gt (elapsedTime s message) (JS.Num MesgTimeLimitSec) = false ->
  (bitcoinMessage_verify message address signature = Returns false ->
   exists s',
     submitStar address message signature star s
     = (Rejected SignatureInvalidError, s')
     /\ heap s' = heap s /\ chain s' = chain s
     /\ chainHeight s' = chainHeight s)
  /\ (forall e,
        bitcoinMessage_verify message address signature = Throws e ->
        exists s',
          submitStar address message signature star s
          = (Rejected (Thrown e), s')
          /\ heap s' = heap s /\ chain s' = chain s
          /\ chainHeight s' = chainHeight s).
Proof.
  intros Hwin. rewrite submitStar_window, Hwin, verify_and_append_run.
  split; [intros Hv | intros e Hv]; rewrite Hv; by exists (tick s).
Qed.

End SubmitStar.

(** ** Look-ups *)

Section Lookups.

Context {BC : BlockClass} {Env : Environment}.

Lemma Array_find_none (pred : Block -> bool) (s : Store) (arr : list loc) :
  Forall (fun l => exists b, heap s !! l = Some b /\ pred b = false) arr ->
  Array_find pred arr s = (Resolved Undefined, s).
Proof.
  induction 1 as [|l arr' (b & Hb & Hp) _ IH]; [done|].
  cbn [Array_find]. rewrite (bind_read _ _ _ _ Hb), Hp. exact IH.
Qed.

Lemma Array_find_first (pred : Block -> bool) (s : Store)
      (before after : list loc) (l : loc) (b : Block) :
  Forall (fun l => exists b, heap s !! l = Some b /\ pred b = false) before ->
  heap s !! l = Some b -> pred b = true ->
  Array_find pred (before ++ l :: after) s = (Resolved (Ref l), s).
Proof.
  intros Hbefore Hb Hp.
  induction Hbefore as [|l' arr' (b' & Hb' & Hp') _ IH]; cbn [app Array_find].
  - by rewrite (bind_read _ _ _ _ Hb), Hp.
  - rewrite (bind_read _ _ _ _ Hb'), Hp'. exact IH.
Qed.

(** X17: [getBlockByHash] resolves with the first entry whose stored digest
    is the one asked for: the entries before it, whose digests differ, are
    passed over, and whatever comes after it is not looked at. *)
Lemma getBlockByHash_first (h : option string) (s : Store)
      (before after : list loc) (l : loc) (b : Block) :
  chain s = before ++ l :: after ->
  Forall (fun l => exists b, heap s !! l = Some b /\ hash b <> h) before ->
  heap s !! l = Some b -> hash b = h ->
  getBlockByHash h s = (Resolved (Ref l), s).
Proof.
  intros Hchain Hbefore Hb Hh. unfold getBlockByHash.
  unfold Js_bind at 1, get_chain at 1. rewrite Hchain.
  unfold Js_bind at 1.
  rewrite (Array_find_first _ s before after l b); [done| |done|].
  - eapply Forall_impl; [exact Hbefore|]. intros l' (b' & Hb' & Hne).
    exists b'. split; [done|]. unfold strict_eq. by apply bool_decide_eq_false.
  - unfold strict_eq. by apply bool_decide_eq_true.
Qed.

(** When no entry has the digest asked for, [getBlockByHash] resolves
    with [undefined]: [find] gives [undefined], which is not [null]. *)
Lemma getBlockByHash_absent (h : option string) (s : Store) :
  Forall (fun l => exists b, heap s !! l = Some b /\ hash b <> h) (chain s) ->
  getBlockByHash h s = (Resolved Undefined, s).
Proof.
  intros Hall. unfold getBlockByHash.
  unfold Js_bind at 1, get_chain at 1. unfold Js_bind at 1.
  rewrite Array_find_none; [done|].
  eapply Forall_impl; [exact Hall|]. intros l (b & Hb & Hne).
  exists b. split; [done|]. unfold strict_eq. by apply bool_decide_eq_false.
Qed.

Lemma Promise_all_resolved {A} (xs : list A) :
  Promise_all (map Resolved xs) = Resolved xs.
Proof. induction xs as [|x xs IH]; [done|]. cbn. by rewrite IH. Qed.

Lemma filter_non_null_owned (address : string) (datas : list Payload) :
  filter_non_null
    (map (fun data => if bool_decide (Payload_owner data = Some address)
                      then Some data else None) datas)
  = filter (owned_by address) datas.
Proof.
  unfold filter_non_null, owned_by.
  induction datas as [|d ds IH]; [done|].
  cbn [map]. rewrite filter_cons.
  destruct (decide (Payload_owner d = Some address)) as [Ho|Ho].
  - rewrite bool_decide_true by done. cbn. by rewrite IH.
  - rewrite bool_decide_false by done. cbn. by rewrite IH.
Qed.

Lemma getStars_loop_run (address : string) (s : Store)
      (rest : list loc) (datas : list Payload) :
  Forall2 (decodes_to s) rest datas ->
  getStars_loop address rest s
  = (Resolved
       (map Resolved
          (map (fun data => if bool_decide (Payload_owner data = Some address)
                            then Some data else None) datas)), s).
Proof.
  induction 1 as [|l d rest' ds (b & Hb & Hd) _ IH]; [done|].
  cbn [getStars_loop]. rewrite (bind_read _ _ _ _ Hb), Hd.
  unfold Js_bind at 1. cbn [call Js_ret].
  unfold Js_bind at 1. by rewrite IH.
Qed.

(** C3 (as amended): when the payload of every entry of the chain
    decodes, [getStarsByWalletAddress] resolves with exactly the decoded
    payloads whose owner is the address, in the order of the chain; the
    genesis payload, which has no owner, is not among them. *)
Theorem getStarsByWalletAddress_all_decodable
    (address : string) (s : Store) (datas : list Payload) :
  Forall2 (decodes_to s) (chain s) datas ->
  getStarsByWalletAddress address s
  = (Resolved (filter (owned_by address) datas), s)
  /\ GenesisData ∉ filter (owned_by address) datas.
Proof.
  intros Hdec. split.
  - unfold getStarsByWalletAddress.
    unfold Js_bind at 1, get_chain at 1. unfold Js_bind at 1.
    rewrite (getStars_loop_run address s _ datas Hdec).
    by rewrite Promise_all_resolved, filter_non_null_owned.
  - intros Hin. apply list_elem_of_filter in Hin as [Ho _].
    unfold owned_by in Ho. discriminate Ho.
Qed.

Lemma getStars_loop_resolved (address : string) (s : Store) (rest : list loc) :
  forall ps s',
    getStars_loop address rest s = (Resolved ps, s') ->
    Forall2 (fun l p => exists b q,
                 heap s !! l = Some b /\ getBData b = Returns q
                 /\ p = Promise_then q (fun data =>
                          if bool_decide (Payload_owner data = Some address)
                          then Some data else None))
      rest ps.
Proof.
  induction rest as [|l rest' IH]; intros ps s' Hrun.
  - injection Hrun as <- _. constructor.
  - cbn [getStars_loop] in Hrun. unfold Js_bind at 1, read at 1 in Hrun.
    destruct (heap s !! l) as [b|] eqn:Hb; [|discriminate Hrun].
    unfold Js_bind at 1 in Hrun.
    destruct (getBData b) as [q|e] eqn:Hq; cbn [call Js_ret throw] in Hrun;
      [|discriminate Hrun].
    unfold Js_bind at 1 in Hrun.
    destruct (getStars_loop address rest' s) as [[ps'|e|] s''] eqn:Hrest;
      try discriminate Hrun.
    injection Hrun as <- _.
    constructor; [by exists b, q | by eapply IH].
Qed.

Lemma Promise_all_resolved_inv {A} (ps : list (Promise A)) (xs : list A) :
  Promise_all ps = Resolved xs -> ps = map Resolved xs.
Proof.
  revert xs. induction ps as [|p ps IH]; intros xs Hall.
  - injection Hall as <-. done.
  - cbn [Promise_all] in Hall.
    destruct p as [a|e|]; destruct (Promise_all ps) as [l|e'|];
      try discriminate Hall.
    injection Hall as <-. cbn. f_equal. by apply IH.
Qed.

(** The scan resolves only if the payload of every entry decodes: one
    entry whose payload does not decode keeps the whole call from
    resolving. *)
Lemma getStarsByWalletAddress_resolved_inv
      (address : string) (s : Store) (stars : list Payload) :
  fst (getStarsByWalletAddress address s) = Resolved stars ->
  exists datas, Forall2 (decodes_to s) (chain s) datas.
Proof.
  unfold getStarsByWalletAddress.
  unfold Js_bind at 1, get_chain at 1. unfold Js_bind at 1.
  destruct (getStars_loop address (chain s) s) as [[ps|e|] s'] eqn:Hloop;
    try discriminate.
  destruct (Promise_all ps) as [result|e|] eqn:Hall; try discriminate.
  intros _. apply Promise_all_resolved_inv in Hall. subst ps.
  apply getStars_loop_resolved in Hloop.
  clear -Hloop. revert result Hloop.
  induction (chain s) as [|l ls IH]; intros result Hloop.
  - exists []. constructor.
  - destruct result as [|r rs]; [by apply Forall2_cons_nil_inv in Hloop|].
    cbn [map] in Hloop. apply Forall2_cons_1 in Hloop as [(b & q & Hb & Hq & Hp) Hrest].
    destruct (IH rs Hrest) as [datas Hdatas].
    destruct q as [d|e|]; try discriminate Hp.
    exists (d :: datas). constructor; [by exists b | done].
Qed.

End Lookups.

(** ** Chains built by initialization and appends *)

Section BuiltChains.

Context {Env : Environment}.

#[local] Existing Instance SpecBlock.

(** An entry sealed from an unsealed one passes its own validation. *)
Lemma sealed_validate (b3 : Block) (data : Payload) :
  hash b3 = None -> body b3 = Encoded data -> validate (sealed b3) = true.
Proof.
  intros Hh Hb. cbn. rewrite Hb. apply bool_decide_eq_true.
  f_equal. f_equal. destruct b3; cbn in *; by subst.
Qed.

Lemma Sound_validateChain (s : Store) (bs : list Block) :
  Sound s bs -> validateChain s = (Resolved [], s).
Proof.
  intros HS. rewrite (validateChain_run s bs (sound_entries s bs HS)).
  f_equal. f_equal. apply errorsFrom_nil_iff. intros i. unfold flagged.
  destruct (bs !! i) as [b|] eqn:Hb; [|done].
  rewrite (sound_valid s bs HS i b Hb). cbn [negb].
  destruct (bs !! S i) as [n|] eqn:Hn; [|done].
  unfold loose_neq. rewrite bool_decide_true; [done|].
  symmetry. by eapply sound_link.
Qed.

Lemma Sound_init (h : list Block) (t : nat) :
  exists bs, Sound (initialized h t) bs.
Proof.
  set (b0 := Block_new GenesisData).
  set (s1 := mkStore (h ++ [b0]) [] (-1) t).
  assert (Hb0 : heap s1 !! length h = Some b0).
  { cbn [heap s1]. by rewrite list_lookup_middle. }
  assert (Hrun : initialized h t
                 = snd ((_addBlock (length h) ;;; Js_ret tt) s1)) by reflexivity.
  rewrite Hrun. unfold Js_bind. rewrite (_addBlock_run s1 (length h) b0 Hb0).
  cbn.
  exists [sealed (set_height 0 (set_time (JS.secondsText (Date_getTime t)) b0))].
  assert (Hlt : length h < length (h ++ [b0])).
  { rewrite length_app. cbn. lia. }
  split; cbn [heap chain chainHeight].
  - constructor; [|constructor]. by apply list_lookup_insert_eq.
  - done.
  - intros [|i] b Hb; [|done]. injection Hb as <-. reflexivity.
  - intros [|i] b Hb; [|done]. injection Hb as <-.
    by apply (sealed_validate _ GenesisData).
  - intros [|i] b n Hb Hn; done.
  - reflexivity.
Qed.

Lemma Sound_fresh (s : Store) (bs : list Block) :
  entries_are s bs -> length (heap s) ∉ chain s.
Proof.
  intros Hbs Hin.
  apply list_elem_of_lookup_1 in Hin as [i Hi].
  destruct (Forall2_lookup_l _ _ _ _ _ Hbs Hi) as (b & _ & Hb).
  apply lookup_lt_Some in Hb. lia.
Qed.

Lemma entries_are_alloc (s : Store) (bs : list Block) (b0 : Block) :
  entries_are s bs ->
  entries_are (mkStore (heap s ++ [b0]) (chain s) (chainHeight s) (ticks s)) bs.
Proof.
  unfold entries_are. cbn [heap chain].
  intros Hbs. eapply Forall2_impl; [exact Hbs|].
  intros l b Hl. cbn beta in *. rewrite lookup_app_l; [done|].
  by eapply lookup_lt_Some.
Qed.

(** Sealing and appending a newly constructed entry with a payload other
    than the genesis sentinel to a sound chain succeeds, and the chain
    it leaves is sound. *)
Lemma Sound_append (s : Store) (bs : list Block) (data : Payload) :
  Sound s bs ->
  data <> GenesisData ->
  let s1 := mkStore (heap s ++ [Block_new data]) (chain s) (chainHeight s) (ticks s) in
  exists s2 bs',
    _addBlock (length (heap s)) s1 = (Resolved (length (heap s)), s2)
    /\ Sound s2 bs'.
Proof.
  intros HS Hdata s1.
  set (block := length (heap s)).
  set (b0 := Block_new data).
  pose proof (sound_entries s bs HS) as Hbs.
  assert (Hbs1 : entries_are s1 bs) by (by apply entries_are_alloc).
  assert (Hfresh : block ∉ chain s1) by (by apply (Sound_fresh s bs)).
  assert (Hb0 : heap s1 !! block = Some b0).
  { cbn [heap s1]. by rewrite list_lookup_middle. }
  assert (Hlt : block < length (heap s1)) by (by eapply lookup_lt_Some).
  destruct (stamped_is_Some s1 b0 (entries_are_allocated s1 bs Hbs1)
              (sound_nonempty s bs HS)) as [b3 Hb3].
  destruct (stamped_fields s1 b0 b3 Hb3) as (Ht & Hh & Hhash & Hbody & Hprev).
  assert (Hgen : isGenesisBlock
                   (set_height (Z.of_nat (length (chain s1)))
                      (set_time (JS.secondsText (Date_getTime (ticks s1))) b0))
                 = false).
  { cbn. apply bool_decide_eq_false. congruence. }
  rewrite Hgen in Hprev. destruct Hprev as (l & lastBlock & Hlast & Hlb & Hprev).
  assert (Herr : errorsFrom bs 0 = []).
  { pose proof (Sound_validateChain s bs HS) as Hv.
    rewrite (validateChain_run s bs Hbs) in Hv. by injection Hv. }
  assert (Hval : validateChain (stamping s1 block (sealed b3))
                 = (Resolved [], stamping s1 block (sealed b3))).
  { rewrite (validateChain_run _ bs
               (entries_are_stamping s1 block _ bs Hfresh Hbs1)).
    by rewrite Herr. }
  eexists _, (bs ++ [sealed b3]). split.
  { rewrite (_addBlock_run s1 block b0 Hb0), Hb3. cbv zeta.
    rewrite Hval. cbn [fst length Nat.ltb Nat.leb]. reflexivity. }
  pose proof (Forall2_length _ _ _ Hbs) as Hlen.
  assert (Hlastb : bs !! Init.Nat.pred (length bs) = Some lastBlock).
  { rewrite last_lookup in Hlast. cbn [chain s1] in Hlast.
    rewrite Hlen in Hlast.
    destruct (Forall2_lookup_l _ _ _ _ _ Hbs1 Hlast) as (b' & Hb' & Hlb').
    congruence. }
  split; cbn [heap chain chainHeight stamping s1].
  - apply Forall2_app.
    + apply (entries_are_stamping s1 block (sealed b3) bs Hfresh Hbs1).
    + constructor; [|constructor]. by apply list_lookup_insert_eq.
  - by destruct (chain s).
  - intros i b Hb. destruct (decide (i < length bs)) as [Hi|Hi].
    + rewrite lookup_app_l in Hb by done. by eapply sound_height.
    + rewrite lookup_app_r in Hb by lia.
      destruct (i - length bs) as [|k] eqn:Hk; [|done].
      injection Hb as <-. cbn [height sealed set_hash]. rewrite Hh.
      cbn [chain s1]. f_equal. lia.
  - intros i b Hb. destruct (decide (i < length bs)) as [Hi|Hi].
    + rewrite lookup_app_l in Hb by done. by eapply sound_valid.
    + rewrite lookup_app_r in Hb by lia.
      destruct (i - length bs) as [|k] eqn:Hk; [|done].
      injection Hb as <-. apply (sealed_validate _ data); [|done].
      by rewrite Hhash.
  - intros i b n Hb Hn. destruct (decide (S i < length bs)) as [Hi|Hi].
    + rewrite lookup_app_l in Hb by lia. rewrite lookup_app_l in Hn by lia.
      by eapply sound_link.
    + rewrite lookup_app_r in Hn by lia.
      destruct (S i - length bs) as [|k] eqn:Hk; [|done].
      injection Hn as <-.
      assert (Hi' : i = Init.Nat.pred (length bs)) by lia.
      rewrite lookup_app_l in Hb by lia. rewrite Hi' in Hb.
      cbn [previousBlockHash sealed set_hash]. congruence.
  - rewrite length_app. cbn [length sealed set_hash height]. rewrite Hh.
    cbn [chain s1]. lia.
Qed.

Lemma Sound_tick (s : Store) (bs : list Block) :
  Sound s bs -> Sound (mkStore (heap s) (chain s) (chainHeight s) (S (ticks s))) bs.
Proof. intros [H1 H2 H3 H4 H5 H6]. by split. Qed.

Lemma Built_Sound (s : Store) : Built s -> exists bs, Sound s bs.
Proof.
  induction 1 as [h t|s s1 s2 data block _ [bs IH] Hdata Halloc Hadd
                 |s _ [bs IH]].
  - apply Sound_init.
  - unfold alloc in Halloc. injection Halloc as <- <-.
    destruct (Sound_append s bs data IH Hdata) as (s2' & bs' & Hrun & HS).
    cbv zeta in Hrun.
    assert (Hs2 : (Resolved (length (heap s)), s2)
                  = (Resolved (length (heap s)), s2'))
      by (rewrite <- Hadd; exact Hrun).
    injection Hs2 as ->. by exists bs'.
  - exists bs. by apply Sound_tick.
Qed.

(** A successful [submitStar] extends a built chain to a built chain. *)
Lemma submitStar_Built (s s' : Store) (address message signature : string)
      (star : Star) (block : loc) :
  Built s ->
  submitStar address message signature star s = (Resolved block, s') ->
  Built s'.
Proof.
  intros HB Hrun. rewrite submitStar_window in Hrun.
  destruct (JS.gt _ _); [discriminate Hrun|].
  rewrite verify_and_append_run in Hrun.
  destruct (bitcoinMessage_verify message address signature) as [[|]|e];
    try discriminate Hrun.
  cbn [heap chain chainHeight ticks tick] in Hrun.
  set (s1 := mkStore (heap s ++ [Block_new (StarData address star)]) (chain s)
               (chainHeight s) (S (ticks s))) in *.
  destruct (_addBlock (length (heap s)) s1) as [[block'|e|] s2] eqn:Hadd;
    try discriminate Hrun.
  injection Hrun as <- <-.
  destruct (Built_Sound _ (Built_tick s HB)) as [bs HS].
  destruct (Sound_append _ bs (StarData address star) HS) as (s2' & bs' & Hrun' & _);
    [done|].
  cbv zeta in Hrun'.
  assert (Hs2 : (Resolved block', s2) = (Resolved (length (heap s)), s2'))
    by (rewrite <- Hadd; exact Hrun').
  injection Hs2 as -> ->.
  by apply (Built_append _ s1 s2' (StarData address star) (length (heap s))
              (Built_tick s HB)).
Qed.

(** The initialized engine, in closed form. *)
Lemma initialized_run (h : list Block) (t : nat) :
  initialized h t
  = mkStore
      (h ++ [sealed (set_height 0 (set_time (JS.secondsText (Date_getTime t))
                                     (Block_new GenesisData)))])
      [length h] 0 (S t).
Proof.
  set (b0 := Block_new GenesisData).
  set (s1 := mkStore (h ++ [b0]) [] (-1) t).
  assert (Hb0 : heap s1 !! length h = Some b0).
  { cbn [heap s1]. by rewrite list_lookup_middle. }
  assert (Hrun : initialized h t
                 = snd ((_addBlock (length h) ;;; Js_ret tt) s1)) by reflexivity.
  assert (Hst : stamped s1 b0
                = Some (set_height 0 (set_time (JS.secondsText (Date_getTime t)) b0)))
    by reflexivity.
  rewrite Hrun. unfold Js_bind.
  rewrite (_addBlock_run s1 (length h) b0 Hb0), Hst. cbv zeta.
  rewrite (validateChain_run _ []) by (unfold entries_are; constructor).
  cbn [errorsFrom fst snd length Nat.ltb Nat.leb Js_ret stamping heap chain ticks s1].
  f_equal. rewrite insert_app_r_alt by lia. by rewrite Nat.sub_diag.
Qed.

(** A successful [submitStar] extends such a history by its payload. *)
Lemma submitStar_Appended (s s' : Store) (datas : list Payload)
      (address message signature : string) (star : Star) (block : loc) :
  Appended s datas ->
  submitStar address message signature star s = (Resolved block, s') ->
  Appended s' (datas ++ [StarData address star]).
Proof.
  intros HA Hrun. rewrite submitStar_window in Hrun.
  destruct (JS.gt _ _); [discriminate Hrun|].
  rewrite verify_and_append_run in Hrun.
  destruct (bitcoinMessage_verify message address signature) as [[|]|e];
    try discriminate Hrun.
  cbn [heap chain chainHeight ticks tick] in Hrun.
  set (s1 := mkStore (heap s ++ [Block_new (StarData address star)]) (chain s)
               (chainHeight s) (S (ticks s))) in *.
  pose proof (addBlock_outcome s1 (length (heap s))) as Hout.
  destruct (_addBlock (length (heap s)) s1) as [[block'|e|] s2] eqn:Hadd;
    try discriminate Hrun.
  cbn [fst] in Hout. subst block'. injection Hrun as <- <-.
  by apply (Appended_append _ s1 s2 datas (StarData address star)
              (length (heap s)) (Appended_tick s datas HA)).
Qed.

Lemma Appended_Built (s : Store) (datas : list Payload) :
  Appended s datas -> GenesisData ∉ datas -> Built s.
Proof.
  induction 1 as [h t|s s1 s2 datas data block _ IH Halloc Hadd|s datas _ IH];
    intros Hno.
  - apply Built_init.
  - apply not_elem_of_app in Hno as [Hno Hdata].
    apply (Built_append s s1 s2 data block (IH Hno)); [|done..].
    intros ->. apply Hdata. by left.
  - apply Built_tick. by apply IH.
Qed.

Lemma Appended_shape (s : Store) (datas : list Payload) :
  Appended s datas ->
  chain_allocated s /\ heights_are_indices s /\ height_is_last_index s
  /\ length (chain s) = S (length datas).
Proof.
  induction 1 as [h t|s s1 s2 datas data block _ IH Halloc Hadd|s datas _ IH].
  - rewrite initialized_run.
    unfold chain_allocated, heights_are_indices, height_is_last_index.
    cbn [heap chain chainHeight length].
    split; [|split; [|done]].
    + constructor; [|constructor]. rewrite list_lookup_middle by done. by eexists.
    + intros [|i] l b Hl Hb; [|done]. injection Hl as <-.
      rewrite list_lookup_middle in Hb by done. by injection Hb as <-.
  - destruct IH as (Hall & Hh & _ & Hlen).
    unfold alloc in Halloc. injection Halloc as <- <-.
    set (s1 := mkStore (heap s ++ [Block_new data]) (chain s) (chainHeight s)
                 (ticks s)) in *.
    assert (Hfresh : length (heap s) ∉ chain s1).
    { cbn [chain s1]. intros Hin. unfold chain_allocated in Hall.
      rewrite Forall_forall in Hall. destruct (Hall _ Hin) as [b Hb].
      apply lookup_lt_Some in Hb. lia. }
    assert (Hall1 : chain_allocated s1).
    { unfold chain_allocated in *. cbn [heap chain s1].
      eapply Forall_impl; [exact Hall|]. intros l [b Hb].
      exists b. rewrite lookup_app_l; [done|]. by eapply lookup_lt_Some. }
    assert (Hh1 : heights_are_indices s1).
    { intros i l b Hl Hb. cbn [heap chain s1] in *.
      unfold chain_allocated in Hall. rewrite Forall_forall in Hall.
      destruct (Hall l) as [b' Hb']; [by eapply list_elem_of_lookup_2|].
      rewrite lookup_app_l in Hb by (by eapply lookup_lt_Some).
      by eapply Hh. }
    destruct (addBlock_keeps_shape s1 s2 _ Hfresh Hadd)
      as (Hchain & Hall2 & Hh2 & He2).
    split; [by apply Hall2|]. split; [by apply Hh2|]. split; [done|].
    rewrite Hchain, !length_app. cbn [chain s1 length]. lia.
  - exact IH.
Qed.

(** C6 (as amended): in every chain built by calls made one at a time,
    the initialization having settled before the first append and every
    append of a newly constructed entry having settled, with success,
    before the next call, the chain holds the genesis entry and the
    appended entries, the entry at index [i] has height [i] and the height
    of the engine is the length of the chain minus one, whatever the
    payloads are; when none of the appended entries has the payload of
    the genesis entry, validation of the chain resolves with the empty
    error list. *)
Theorem built_chain_is_consistent (s : Store) (datas : list Payload) :
  Appended s datas ->
  length (chain s) = S (length datas)
  /\ (forall i l b, chain s !! i = Some l -> heap s !! l = Some b ->
                    height b = Z.of_nat i)
  /\ chainHeight s = (Z.of_nat (length (chain s)) - 1)%Z
  /\ (GenesisData ∉ datas -> validateChain s = (Resolved [], s)).
Proof.
  intros HA. destruct (Appended_shape s datas HA) as (_ & Hh & He & Hlen).
  split; [done|]. split; [exact Hh|]. split; [exact He|].
  intros Hno. destruct (Built_Sound s (Appended_Built s datas HA Hno)) as [bs HS].
  by eapply Sound_validateChain.
Qed.

End BuiltChains.

(** ** The class at work on concrete chains *)

Section Runs.

Import Demo.

(** A message without a time component is let through by the time check;
    with a signature the verifier accepts, the star is registered. *)
Lemma malformed_challenge_is_accepted :
  JS.parseInt (JS.split ":" "hello" !! 1%nat) = JS.NaN
  /\ fst (submitStar "addr1" "hello" "signed:hello" "star A" fresh) = Resolved 1
  /\ chain (snd (submitStar "addr1" "hello" "signed:hello" "star A" fresh))
     = [0; 1].
Proof. vm_compute. repeat split; reflexivity. Qed.

Lemma submitStar_unparsable_time_is_verified_witness :
  JS.parseInt (JS.split ":" "hello" !! 1%nat) = JS.NaN
  /\ submitStar "addr1" "hello" "forged" "star A" fresh
     = verify_and_append "addr1" "hello" "forged" "star A" (tick fresh)
  /\ fst (submitStar "addr1" "hello" "forged" "star A" fresh)
     = Rejected SignatureInvalidError.
Proof.
  assert (Hnan : JS.parseInt (JS.split ":" "hello" !! 1%nat) = JS.NaN)
    by reflexivity.
  destruct (submitStar_unparsable_time_is_verified
              "addr1" "hello" "forged" "star A" fresh Hnan)
    as (Hrun & Hfalse & _).
  split; [exact Hnan|]. split; [exact Hrun|].
  apply Hfalse. vm_compute. reflexivity.
Defined.

(** C2: on a newly initialized chain, asking for a digest that no entry
    has resolves with [undefined]; the promise is not rejected with the
    "Block with the hash not found" reason. *)
Theorem getBlockByHash_absent_digest_resolves_undefined :
  getBlockByHash (Some "no such digest") fresh = (Resolved Undefined, fresh)
  /\ fst (getBlockByHash (Some "no such digest") fresh) <> Rejected NotFoundError.
Proof.
  assert (Hrun : getBlockByHash (Some "no such digest") fresh
                 = (Resolved Undefined, fresh)).
  { apply getBlockByHash_absent. vm_compute.
    constructor; [|constructor]. eexists. split; [reflexivity|discriminate]. }
  split; [exact Hrun|]. rewrite Hrun. discriminate.
Qed.

(** With entry 1 corrupted, the scan for the stars of "addr2", whose star
    is entry 2, never settles. *)
Lemma corrupted_entry_blocks_the_scan :
  (getBData <$> heap corrupted !! 1%nat)
  = Some (Returns (Rejected (Thrown "DecodeError")))
  /\ (getBData <$> heap corrupted !! 2%nat)
     = Some (Returns (Resolved (StarData "addr2" "star B")))
  /\ fst (getStarsByWalletAddress "addr2" corrupted) = Pending.
Proof. vm_compute. repeat split; reflexivity. Qed.

Lemma getStarsByWalletAddress_all_decodable_witness :
  getStarsByWalletAddress "addr2" two_stars
  = (Resolved [StarData "addr2" "star B"], two_stars)
  /\ GenesisData ∉ [StarData "addr2" "star B"].
Proof.
  apply (getStarsByWalletAddress_all_decodable "addr2" two_stars
           [GenesisData; StarData "addr1" "star A"; StarData "addr2" "star B"]).
  vm_compute.
  repeat (constructor; [eexists; split; reflexivity|]). constructor.
Defined.

(** A challenge issued for the address "a:b" at second 1000 is submitted
    at second 1400, 400 seconds later, with a signature the verifier
    accepts.  The time the method reads from the message is the text "b"
    behind the first colon, the elapsed time is [NaN], and the star is
    registered: the call is not rejected for the age of the challenge. *)
Lemma expired_challenge_for_colon_address_is_accepted :
  fst (requestMessageOwnershipVerification "a:b" (mkStore [] [] (-1) 0))
  = Resolved "a:b:1000:starRegistry"
  /\ JS.parseInt (Some (JS.secondsText (Date_getTime (ticks (tick fresh)))))
     = JS.Num 1400
  /\ JS.split ":" "a:b:1000:starRegistry" !! 1%nat = Some "b"
  /\ elapsedTime (tick fresh) "a:b:1000:starRegistry" = JS.NaN
  /\ fst (submitStar "a:b" "a:b:1000:starRegistry"
            "signed:a:b:1000:starRegistry" "star A" (tick fresh)) = Resolved 1
  /\ fst (submitStar "a:b" "a:b:1000:starRegistry"
            "signed:a:b:1000:starRegistry" "star A" (tick fresh))
     <> Rejected ChallengeExpiredError.
Proof. vm_compute. repeat split; [reflexivity..|discriminate]. Qed.

(** The challenge for "addr1" that carries second 1000 is accepted at
    second 1200 and rejected at second 1400; the one that carries second
    1900, 700 seconds ahead of the clock, is accepted at second 1200. *)
Lemma submitStar_expired_iff_witness :
  ((1000 <= Date_getTime (ticks fresh))%Z
   /\ JS.split ":" "addr1" = ["addr1"]
   /\ elapsedTime fresh "addr1:1000:starRegistry" = JS.Num 200
   /\ submitStar "addr1" "addr1:1000:starRegistry"
        "signed:addr1:1000:starRegistry" "star A" fresh
      = verify_and_append "addr1" "addr1:1000:starRegistry"
          "signed:addr1:1000:starRegistry" "star A" (tick fresh))
  /\ ((1000 <= Date_getTime (ticks (tick fresh)))%Z
      /\ elapsedTime (tick fresh) "addr1:1000:starRegistry" = JS.Num 400
      /\ fst (submitStar "addr1" "addr1:1000:starRegistry"
                "signed:addr1:1000:starRegistry" "star A" (tick fresh))
         = Rejected ChallengeExpiredError)
  /\ (elapsedTime fresh "addr1:1900:starRegistry" = JS.Num (-700)
      /\ submitStar "addr1" "addr1:1900:starRegistry"
           "signed:addr1:1900:starRegistry" "star A" fresh
         = verify_and_append "addr1" "addr1:1900:starRegistry"
             "signed:addr1:1900:starRegistry" "star A" (tick fresh)).
Proof.
  assert (Hms1 : (1000 <= Date_getTime (ticks fresh))%Z)
    by (vm_compute; discriminate).
  assert (Hms2 : (1000 <= Date_getTime (ticks (tick fresh)))%Z)
    by (vm_compute; discriminate).
  assert (Haddr : JS.split ":" "addr1" = ["addr1"]) by reflexivity.
  split; [|split].
  - destruct (submitStar_expired_iff "addr1" "signed:addr1:1000:starRegistry"
                "star A" fresh 1000 Hms1 ltac:(lia) Haddr)
      as (Hel & _ & _ & Hacc).
    split; [exact Hms1|]. split; [exact Haddr|].
    split; [exact Hel|]. apply Hacc. vm_compute. discriminate.
  - destruct (submitStar_expired_iff "addr1" "signed:addr1:1000:starRegistry"
                "star A" (tick fresh) 1000 Hms2 ltac:(lia) Haddr)
      as (Hel & Hiff & _ & _).
    split; [exact Hms2|]. split; [exact Hel|].
    apply Hiff. vm_compute. reflexivity.
  - destruct (submitStar_expired_iff "addr1" "signed:addr1:1900:starRegistry"
                "star A" fresh 1900 Hms1 ltac:(lia) Haddr)
      as (Hel & _ & _ & Hacc).
    split; [exact Hel|]. apply Hacc. vm_compute. discriminate.
Defined.

Example challenge_scenario :
  fst (requestMessageOwnershipVerification "addr1" (mkStore [] [] (-1) 0))
  = Resolved "addr1:1000:starRegistry"
  /\ fst (submitStar "addr1" "addr1:1000:starRegistry"
            "signed:addr1:1000:starRegistry" "star A" fresh) = Resolved 1
  /\ fst (submitStar "addr1" "addr1:1000:starRegistry"
            "signed:addr1:1000:starRegistry" "star A" (tick fresh))
     = Rejected ChallengeExpiredError
  /\ fst (submitStar "addr1" "addr1:1900:starRegistry"
            "signed:addr1:1900:starRegistry" "star A" fresh) = Resolved 1.
Proof. vm_compute. repeat split; reflexivity. Qed.

Lemma addBlock_refuses_broken_chain_witness :
  fst (validateChain corrupted_and_entry) = Resolved [1]
  /\ exists s',
      _addBlock 3 corrupted_and_entry = (Rejected ChainCorruptedError, s')
      /\ chain s' = chain corrupted_and_entry
      /\ chainHeight s' = chainHeight corrupted_and_entry
      /\ (forall l, l ∈ chain corrupted_and_entry ->
                    heap s' !! l = heap corrupted_and_entry !! l).
Proof.
  assert (Hval : fst (validateChain corrupted_and_entry) = Resolved [1])
    by (vm_compute; reflexivity).
  split; [exact Hval|].
  apply (addBlock_refuses_broken_chain corrupted_and_entry 3 [1]).
  - vm_compute. eexists. reflexivity.
  - apply (bool_decide_unpack _). vm_compute. exact I.
  - exact Hval.
  - discriminate.
Defined.

(** Two ways in which successful appends leave a chain that breaks the
    invariants.  Two calls made in the same turn, for two newly
    constructed star entries, both resolve: both entries carry height 1
    and refer back to the genesis entry, the second sits at index 2, the
    height of the engine is 1 with three entries in the chain, and
    validation reports index 1.  And, with calls made one at a time, a
    second entry with the genesis payload is sealed and appended without
    a back-reference, and validation of the chain it leaves reports
    index 0. *)
Lemma appends_that_break_the_invariants :
  (fst (_addBlock_overlapping 1 2 fresh_and_two_entries)
   = (Resolved 1, Resolved 2)
   /\ chain overlapped = [0; 1; 2]
   /\ (height <$> heap overlapped) = [0; 1; 1]%Z
   /\ (previousBlockHash <$> heap overlapped !! 2%nat)
      = (hash <$> heap overlapped !! 0%nat)
   /\ chainHeight overlapped = 1%Z
   /\ fst (validateChain overlapped) = Resolved [1])
  /\ (Appended two_genesis [GenesisData]
      /\ chain two_genesis = [0; 1]
      /\ fst (validateChain two_genesis) = Resolved [0]).
Proof.
  split.
  - vm_compute. repeat split; reflexivity.
  - split; [|vm_compute; split; reflexivity].
    apply (Appended_append fresh
             (snd (alloc (Block_new GenesisData) fresh)) two_genesis
             [] GenesisData 1 (Appended_init [] 0)).
    + reflexivity.
    + vm_compute. reflexivity.
Qed.

Lemma built_chain_is_consistent_witness :
  Appended two_stars [StarData "addr1" "star A"; StarData "addr2" "star B"]
  /\ length (chain two_stars) = 3
  /\ (forall i l b, chain two_stars !! i = Some l ->
                    heap two_stars !! l = Some b -> height b = Z.of_nat i)
  /\ chainHeight two_stars = (Z.of_nat (length (chain two_stars)) - 1)%Z
  /\ validateChain two_stars = (Resolved [], two_stars).
Proof.
  assert (HA : Appended two_stars
                 [StarData "addr1" "star A"; StarData "addr2" "star B"]).
  { apply (submitStar_Appended one_star two_stars [StarData "addr1" "star A"]
             "addr2" "addr2:1500:starRegistry"
             "signed:addr2:1500:starRegistry" "star B" 2).
    - apply (submitStar_Appended fresh one_star [] "addr1"
               "addr1:1000:starRegistry" "signed:addr1:1000:starRegistry"
               "star A" 1).
      + apply Appended_init.
      + vm_compute. reflexivity.
    - vm_compute. reflexivity. }
  destruct (built_chain_is_consistent two_stars _ HA) as (Hlen & Hh & He & Hv).
  split; [exact HA|]. split; [exact Hlen|]. split; [exact Hh|].
  split; [exact He|]. apply Hv.
  intros Hin. apply elem_of_cons in Hin as [Hin|Hin]; [discriminate Hin|].
  apply elem_of_cons in Hin as [Hin|Hin]; [discriminate Hin|].
  by apply elem_of_nil in Hin.
Defined.

Lemma validateChain_reports_predecessor_witness :
  exists errorLog,
    validateChain two_genesis = (Resolved errorLog, two_genesis)
    /\ 0 ∈ errorLog.
Proof.
  edestruct (validateChain_reports_predecessor two_genesis 0 0 1)
    as (errorLog & Hrun & Hin & _).
  - vm_compute. repeat (constructor; [eexists; reflexivity|]). constructor.
  - reflexivity.
  - reflexivity.
  - vm_compute. reflexivity.
  - vm_compute. reflexivity.
  - vm_compute. discriminate.
  - exists errorLog. split; [exact Hrun | exact Hin].
Defined.

Lemma validateChain_reports_each_index_once_witness :
  exists errorLog,
    validateChain corrupted = (Resolved errorLog, corrupted)
    /\ NoDup errorLog.
Proof.
  edestruct (validateChain_reports_each_index_once corrupted)
    as (errorLog & bs & _ & Hrun & _ & Hnd & _).
  - vm_compute. repeat (constructor; [eexists; reflexivity|]). constructor.
  - exists errorLog. split; [exact Hrun | exact Hnd].
Defined.

Lemma addBlock_rejection_leaves_stamps_witness :
  chain (snd (_addBlock 3 corrupted_and_entry)) = chain corrupted_and_entry
  /\ (time <$> heap corrupted_and_entry !! 3%nat) = Some ""
  /\ (time <$> heap (snd (_addBlock 3 corrupted_and_entry)) !! 3%nat)
     = Some "2000".
Proof.
  destruct (addBlock_rejection_leaves_stamps corrupted_and_entry
              (snd (_addBlock 3 corrupted_and_entry)) 3)
    as (Hchain & _ & b0 & b' & Hb0 & Hb' & Ht & _).
  - vm_compute. reflexivity.
  - split; [exact Hchain|]. split; [vm_compute; reflexivity|].
    rewrite Hb'. cbn [fmap option_fmap option_map]. rewrite Ht.
    vm_compute. reflexivity.
Defined.

(** A verifier that raises on the signature makes the call reject with
    the verifier's error, not with "Message verification failed". *)
Lemma verifier_error_is_passed_on :
  bitcoinMessage_verify "addr1:1000:starRegistry" "addr1" ""
  = Throws "Invalid signature length"
  /\ fst (submitStar "addr1" "addr1:1000:starRegistry" "" "star A" fresh)
     = Rejected (Thrown "Invalid signature length")
  /\ fst (submitStar "addr1" "addr1:1000:starRegistry" "" "star A" fresh)
     <> Rejected SignatureInvalidError.
Proof. vm_compute. repeat split; [reflexivity..|discriminate]. Qed.

Lemma submitStar_verification_failure_witness :
  exists s',
    submitStar "addr1" "addr1:1000:starRegistry" "forged" "star A" fresh
    = (Rejected SignatureInvalidError, s')
    /\ heap s' = heap fresh /\ chain s' = chain fresh
    /\ chainHeight s' = chainHeight fresh.
Proof.
  destruct (submitStar_verification_failure
              "addr1" "addr1:1000:starRegistry" "forged" "star A" fresh)
    as [Hfalse _].
  - vm_compute. reflexivity.
  - apply Hfalse. vm_compute. reflexivity.
Defined.

End Runs.

(** ** What sealing and appending does to the store *)

Section AppendEffects.

Context {BC : BlockClass} {Env : Environment}.

Lemma addBlock_dangling (s : Store) (block : loc) :
  heap s !! block = None -> _addBlock block s = (Rejected TypeError, tick s).
Proof.
  intros Hnone. unfold _addBlock. rewrite bind_now_seconds.
  unfold Js_bind, write. cbn [heap]. by rewrite Hnone.
Qed.

Lemma validateChain_empty_chain (s : Store) :
  chain s = [] -> validateChain s = (Resolved [], s).
Proof.
  intros Hnil. apply (validateChain_run s []).
  unfold entries_are. rewrite Hnil. constructor.
Qed.

(** The heap, the chain and the height after [_addBlock], whatever it
    settles with. *)
Lemma addBlock_chain (s s' : Store) (block : loc) (r : Promise loc) :
  _addBlock block s = (r, s') ->
  length (heap s') = length (heap s)
  /\ (forall l, l <> block -> heap s' !! l = heap s !! l)
  /\ ticks s' = S (ticks s)
  /\ match r with
     | Resolved l =>
         l = block /\ chain s' = chain s ++ [block]
         /\ chainHeight s' = Z.of_nat (length (chain s))
     | Rejected _ => chain s' = chain s /\ chainHeight s' = chainHeight s
     | Pending => False
     end.
Proof.
  intros Hrun. destruct (heap s !! block) as [b0|] eqn:Hb0.
  - rewrite (_addBlock_run s block b0 Hb0) in Hrun.
    assert (Hframe : forall b, forall l, l <> block ->
              <[block := b]> (heap s) !! l = heap s !! l).
    { intros b l Hne. by apply list_lookup_insert_ne. }
    destruct (stamped s b0) as [b3|] eqn:Hb3.
    + cbv zeta in Hrun.
      destruct (stamped_fields s b0 b3 Hb3) as (_ & Hh & _).
      destruct (validateChain_outcome (stamping s block (sealed b3)))
        as [(log & Hlog & _)|Hty]; rewrite ?Hlog, ?Hty in Hrun.
      * destruct (0 <? length log)%nat; injection Hrun as <- <-;
          cbn [heap chain chainHeight ticks stamping];
          rewrite length_insert; repeat split; auto.
      * injection Hrun as <- <-. cbn [heap chain chainHeight ticks stamping].
        rewrite length_insert. repeat split; auto.
    + injection Hrun as <- <-. cbn [heap chain chainHeight ticks stamping].
      rewrite length_insert. repeat split; auto.
  - rewrite (addBlock_dangling s block Hb0) in Hrun. injection Hrun as <- <-.
    cbn. repeat split; auto.
Qed.

(** [_addBlock] in closed form for an entry that the chain does not hold
    yet: the verdict is that of validating the chain as it was. *)
Lemma addBlock_run_fresh (s : Store) (block : loc) (b0 b3 : Block) (bs : list Block) :
  heap s !! block = Some b0 ->
  block ∉ chain s ->
  entries_are s bs ->
  stamped s b0 = Some b3 ->
  _addBlock block s
  = match errorsFrom bs 0 with
    | [] => (Resolved block,
             mkStore (<[block := sealed b3]> (heap s)) (chain s ++ [block])
               (Z.of_nat (length (chain s))) (S (ticks s)))
    | _ :: _ => (Rejected ChainCorruptedError, stamping s block (sealed b3))
    end.
Proof.
  intros Hb0 Hfresh Hbs Hb3.
  rewrite (_addBlock_run s block b0 Hb0), Hb3. cbv zeta.
  rewrite (validateChain_run _ bs (entries_are_stamping s block _ bs Hfresh Hbs)).
  cbn [fst]. destruct (stamped_fields s b0 b3 Hb3) as (_ & Hh & _).
  destruct (errorsFrom bs 0) as [|j js]; [|done].
  cbn [length Nat.ltb Nat.leb heap ticks stamping sealed set_hash height].
  by rewrite Hh.
Qed.

(** X1: sealing and appending only ever appends.  Whatever the entry and
    the state, the call reads the clock once and touches no object but the
    entry; if it resolves, the chain is the old chain followed by the entry
    and the height of the engine is the old length of the chain; if it is
    rejected, with a TypeError or with the "Invalid blockchain" error and
    nothing else, the chain and the height are what they were.  It always
    settles. *)
Theorem addBlock_append_only (s s' : Store) (block : loc) (r : Promise loc) :
  _addBlock block s = (r, s') ->
  ticks s' = S (ticks s)
  /\ length (heap s') = length (heap s)
  /\ (forall l, l <> block -> heap s' !! l = heap s !! l)
  /\ ((r = Resolved block /\ chain s' = chain s ++ [block]
       /\ chainHeight s' = (Z.of_nat (length (chain s')) - 1)%Z)
      \/ ((r = Rejected TypeError \/ r = Rejected ChainCorruptedError)
          /\ chain s' = chain s /\ chainHeight s' = chainHeight s)).
Proof.
  intros Hrun.
  destruct (addBlock_chain s s' block r Hrun) as (Hlen & Hframe & Hticks & Hr).
  pose proof (addBlock_outcome s block) as Hout. rewrite Hrun in Hout.
  cbn [fst] in Hout.
  split; [done|]. split; [done|]. split; [done|].
  destruct r as [l|e|]; [left|right|done].
  - destruct Hr as (-> & Hchain & Hheight). split; [done|]. split; [done|].
    rewrite Hheight, Hchain, length_app. cbn [length]. lia.
  - destruct Hr as [Hchain Hheight].
    split; [|done]. destruct Hout as [-> | ->]; auto.
Qed.

(** X2: on an empty chain there is nothing to validate and nothing to refer
    back to.  An entry that reports itself as a genesis entry is sealed and
    appended, and the height becomes 0; any other entry is rejected with a
    TypeError (the last entry of the chain is [undefined]), the chain stays
    empty, and the entry keeps the time and height stamped on it but gets
    no digest. *)
Theorem addBlock_on_empty_chain (s : Store) (block : loc) (b0 : Block) :
  chain s = [] ->
  heap s !! block = Some b0 ->
  let b1 := set_height 0 (set_time (JS.secondsText (Date_getTime (ticks s))) b0) in
  (isGenesisBlock b1 = true ->
   _addBlock block s
   = (Resolved block,
      mkStore (<[block := sealed b1]> (heap s)) [block] 0 (S (ticks s))))
  /\ (isGenesisBlock b1 = false ->
      _addBlock block s
      = (Rejected TypeError,
         mkStore (<[block := b1]> (heap s)) [] (chainHeight s) (S (ticks s)))).
Proof.
  intros Hnil Hb0 b1.
  assert (Hst : stamped s b0 = if isGenesisBlock b1 then Some b1 else None).
  { unfold stamped. rewrite Hnil. cbn [length].
    change (Z.of_nat 0) with 0%Z. fold b1.
    by destruct (isGenesisBlock b1). }
  rewrite (_addBlock_run s block b0 Hb0), Hst, Hnil.
  cbn [length]. change (Z.of_nat 0) with 0%Z. fold b1.
  split; intros Hgen; rewrite Hgen.
  - cbv zeta. rewrite validateChain_empty_chain by (by cbn).
    cbn. unfold stamping. by rewrite ?Hnil.
  - unfold stamping. by rewrite ?Hnil.
Qed.

(** X3: an entry that is a Block object not yet in the chain, offered to a
    non-empty chain on which validation reports nothing, is appended: the
    call resolves with it, the chain grows by it, the entries already in
    the chain are untouched, and the entry carries the reading of the
    clock, the old length of the chain as its height, the digest of its
    stamped fields and, unless it reports itself as genesis, the digest of
    the entry that was last as its back-reference. *)
Theorem addBlock_appends_sealed_entry
    (s : Store) (block : loc) (b0 : Block) :
  heap s !! block = Some b0 ->
  block ∉ chain s ->
  chain s <> [] ->
  fst (validateChain s) = Resolved [] ->
  exists s' b',
    _addBlock block s = (Resolved block, s')
    /\ chain s' = chain s ++ [block]
    /\ (forall l, l ∈ chain s -> heap s' !! l = heap s !! l)
    /\ heap s' !! block = Some b'
    /\ time b' = JS.secondsText (Date_getTime (ticks s))
    /\ height b' = Z.of_nat (length (chain s))
    /\ body b' = body b0
    /\ hash b' = Some (SHA256_stringify (set_hash (hash b0) b'))
    /\ (isGenesisBlock
          (set_height (Z.of_nat (length (chain s)))
             (set_time (JS.secondsText (Date_getTime (ticks s))) b0)) = false ->
        exists l lastBlock,
          last (chain s) = Some l /\ heap s !! l = Some lastBlock
          /\ previousBlockHash b' = hash lastBlock).
Proof.
  intros Hb0 Hfresh Hne Hval.
  assert (Hlt : block < length (heap s)) by (by eapply lookup_lt_Some).
  pose proof (validateChain_resolved_allocated s [] Hval) as Hall.
  destruct (chain_allocated_entries s Hall) as [bs Hbs].
  rewrite (validateChain_run s bs Hbs) in Hval. injection Hval as Herr.
  destruct (stamped_is_Some s b0 Hall Hne) as [b3 Hb3].
  destruct (stamped_fields s b0 b3 Hb3) as (Ht & Hh & Hhash & Hbody & Hprev).
  eexists _, (sealed b3). split.
  { rewrite (addBlock_run_fresh s block b0 b3 bs Hb0 Hfresh Hbs Hb3), Herr.
    reflexivity. }
  cbn [heap chain].
  split; [done|]. split.
  { intros l Hl. apply list_lookup_insert_ne. by intros ->. }
  split; [by apply list_lookup_insert_eq|].
  do 3 (split; [done|]). split.
  - cbn. f_equal. f_equal. rewrite <- Hhash. by destruct b3.
  - intros Hgen. by rewrite Hgen in Hprev.
Qed.

End AppendEffects.

(** ** What a submission does to the store *)

Section SubmitEffects.

Context {BC : BlockClass} {Env : Environment}.

(** The store in which [submitStar] calls [_addBlock]: the clock has been
    read once and the new entry has been allocated. *)
Lemma submitStar_accepted_run
    (address message signature : string) (star : Star) (s : Store) :
  JS.gt (elapsedTime s message) (JS.Num MesgTimeLimitSec) = false ->
  bitcoinMessage_verify message address signature = Returns true ->
  submitStar address message signature star s
  = match _addBlock (length (heap s))
            (mkStore (heap s ++ [Block_new (StarData address star)])
               (chain s) (chainHeight s) (S (ticks s))) with
    | (Resolved _, s2) => (Resolved (length (heap s)), s2)
    | (Rejected e, s2) => (Rejected e, s2)
    | (Pending, s2) => (Pending, s2)
    end.
Proof.
  intros Hwin Hv. by rewrite submitStar_window, Hwin, verify_and_append_run, Hv.
Qed.

(** X5: a submission within the time window, with a signature the verifier
    accepts, to a non-empty chain on which validation reports nothing,
    registers the star: the call resolves with a new entry, the chain grows
    by exactly that entry, [getChainHeight] then gives the old length of
    the chain, no object that existed before is modified, and the new
    entry holds the body built from [{owner: address, star}], the old
    length as its height and, as its time, the second reading of the clock
    taken during the call. *)
Theorem submitStar_registers_star
    (address message signature : string) (star : Star) (s : Store) :
  JS.gt (elapsedTime s message) (JS.Num MesgTimeLimitSec) = false ->
  bitcoinMessage_verify message address signature = Returns true ->
  chain s <> [] ->
  fst (validateChain s) = Resolved [] ->
  exists s' b',
    submitStar address message signature star s
    = (Resolved (length (heap s)), s')
    /\ chain s' = chain s ++ [length (heap s)]
    /\ fst (getChainHeight s') = Resolved (Z.of_nat (length (chain s)))
    /\ (forall l, l < length (heap s) -> heap s' !! l = heap s !! l)
    /\ heap s' !! length (heap s) = Some b'
    /\ body b' = body (Block_new (StarData address star))
    /\ height b' = Z.of_nat (length (chain s))
    /\ time b' = JS.secondsText (Date_getTime (S (ticks s))).
Proof.
  intros Hwin Hv Hne Hval.
  rewrite (submitStar_accepted_run address message signature star s Hwin Hv).
  set (b0 := Block_new (StarData address star)).
  set (s1 := mkStore (heap s ++ [b0]) (chain s) (chainHeight s) (S (ticks s))).
  pose proof (validateChain_resolved_allocated s [] Hval) as Hall.
  destruct (chain_allocated_entries s Hall) as [bs Hbs].
  rewrite (validateChain_run s bs Hbs) in Hval. injection Hval as Herr.
  assert (Hbs1 : entries_are s1 bs) by (by apply (entries_are_alloc (tick s))).
  assert (Hfresh : length (heap s) ∉ chain s1) by (by apply (Sound_fresh s bs)).
  assert (Hb0 : heap s1 !! length (heap s) = Some b0).
  { cbn [heap s1]. by rewrite list_lookup_middle. }
  destruct (stamped_is_Some s1 b0 (entries_are_allocated s1 bs Hbs1) Hne)
    as [b3 Hb3].
  destruct (stamped_fields s1 b0 b3 Hb3) as (Ht & Hh & _ & Hbody & _).
  rewrite (addBlock_run_fresh s1 _ b0 b3 bs Hb0 Hfresh Hbs1 Hb3), Herr.
  eexists _, (sealed b3). split; [reflexivity|].
  cbn [heap chain chainHeight ticks s1 getChainHeight get_height fst].
  split; [done|]. split; [done|]. split.
  { intros l Hl. rewrite list_lookup_insert_ne by lia. by apply lookup_app_l. }
  split.
  { apply list_lookup_insert_eq. rewrite length_app. cbn. lia. }
  by repeat split.
Qed.

(** X6: a submission changes the chain only by appending, and only when it
    resolves.  Whatever the arguments and the state, no object that existed
    before the call is modified; if the call resolves, it resolves with a
    newly allocated entry, the chain is the old chain followed by that
    entry and the height is the old length of the chain; if it is rejected,
    the chain and the height are what they were.  It always settles. *)
Theorem submitStar_chain_effect
    (address message signature : string) (star : Star)
    (s s' : Store) (r : Promise loc) :
  submitStar address message signature star s = (r, s') ->
  (forall l, l < length (heap s) -> heap s' !! l = heap s !! l)
  /\ match r with
     | Resolved l =>
         l = length (heap s) /\ chain s' = chain s ++ [l]
         /\ chainHeight s' = Z.of_nat (length (chain s))
     | Rejected _ => chain s' = chain s /\ chainHeight s' = chainHeight s
     | Pending => False
     end.
Proof.
  rewrite submitStar_window.
  destruct (JS.gt _ _); [by intros [= <- <-]|].
  rewrite verify_and_append_run.
  destruct (bitcoinMessage_verify message address signature) as [[|]|e];
    [|by intros [= <- <-]..].
  cbn [tick heap chain chainHeight ticks].
  set (s1 := mkStore (heap s ++ [Block_new (StarData address star)]) (chain s)
               (chainHeight s) (S (ticks s))).
  destruct (_addBlock (length (heap s)) s1) as [r1 s2] eqn:Hadd.
  destruct (addBlock_chain s1 s2 _ r1 Hadd) as (_ & Hframe & _ & Hr).
  assert (Hold : forall l, l < length (heap s) -> heap s2 !! l = heap s !! l).
  { intros l Hl. rewrite Hframe by lia. cbn [heap s1]. by apply lookup_app_l. }
  destruct r1 as [l|e|]; intros [= <- <-]; [|done..].
  destruct Hr as (_ & Hchain & Hheight). by repeat split.
Qed.

(** X7: a submission that passes the time check and the verifier is still
    refused when validation of the chain reports an index: the call is
    rejected with the "Invalid blockchain" error, the chain and the height
    are what they were, and the entry built for the star stays behind in
    the heap, outside the chain. *)
Theorem submitStar_refused_on_broken_chain
    (address message signature : string) (star : Star) (s : Store)
    (errorLog : list nat) :
  JS.gt (elapsedTime s message) (JS.Num MesgTimeLimitSec) = false ->
  bitcoinMessage_verify message address signature = Returns true ->
  fst (validateChain s) = Resolved errorLog ->
  errorLog <> [] ->
  exists s',
    submitStar address message signature star s
    = (Rejected ChainCorruptedError, s')
    /\ chain s' = chain s
    /\ chainHeight s' = chainHeight s
    /\ length (heap s') = S (length (heap s))
    /\ length (heap s) ∉ chain s'.
Proof.
  intros Hwin Hv Hval Hne.
  rewrite (submitStar_accepted_run address message signature star s Hwin Hv).
  set (b0 := Block_new (StarData address star)).
  set (s1 := mkStore (heap s ++ [b0]) (chain s) (chainHeight s) (S (ticks s))).
  pose proof (validateChain_resolved_allocated s errorLog Hval) as Hall.
  destruct (chain_allocated_entries s Hall) as [bs Hbs].
  rewrite (validateChain_run s bs Hbs) in Hval. injection Hval as Herr.
  assert (Hchain : chain s <> []).
  { intros Hnil. unfold entries_are in Hbs. rewrite Hnil in Hbs.
    apply Forall2_nil_inv_l in Hbs. subst bs. by rewrite <- Herr in Hne. }
  assert (Hbs1 : entries_are s1 bs) by (by apply (entries_are_alloc (tick s))).
  assert (Hfresh : length (heap s) ∉ chain s1) by (by apply (Sound_fresh s bs)).
  assert (Hb0 : heap s1 !! length (heap s) = Some b0).
  { cbn [heap s1]. by rewrite list_lookup_middle. }
  destruct (stamped_is_Some s1 b0 (entries_are_allocated s1 bs Hbs1) Hchain)
    as [b3 Hb3].
  rewrite (addBlock_run_fresh s1 _ b0 b3 bs Hb0 Hfresh Hbs1 Hb3), Herr.
  destruct errorLog as [|j js]; [done|].
  eexists. split; [reflexivity|].
  cbn [heap chain chainHeight stamping s1].
  rewrite length_insert, length_app. cbn [length].
  repeat split; [lia | done].
Qed.

(** X9: the challenge.  For an address without a colon and a clock past
    its first second, [requestMessageOwnershipVerification] reads the clock
    once, changes nothing else, and resolves with a message that splits at
    its colons into the address, the clock reading in whole seconds and
    "starRegistry"; the time component parses back to the number of whole
    seconds of the reading. *)
Theorem requestMessageOwnershipVerification_format (address : string) (s : Store) :
  (1000 <= Date_getTime (ticks s))%Z ->
  JS.split ":" address = [address] ->
  exists message,
    requestMessageOwnershipVerification address s = (Resolved message, tick s)
    /\ JS.split ":" message
       = [address; JS.secondsText (Date_getTime (ticks s)); "starRegistry"%string]
    /\ JS.parseInt (JS.split ":" message !! 1%nat)
       = JS.Num (Date_getTime (ticks s) / 1000).
Proof.
  intros Hms Haddr.
  exists (address +:+ ":" +:+ JS.secondsText (Date_getTime (ticks s))
            +:+ ":starRegistry").
  split; [reflexivity|].
  assert (Hsplit : JS.split ":" (address +:+ ":"
                      +:+ JS.secondsText (Date_getTime (ticks s))
                      +:+ ":starRegistry")
                   = [address; JS.secondsText (Date_getTime (ticks s));
                      "starRegistry"%string]).
  { change (":" +:+ JS.secondsText (Date_getTime (ticks s)) +:+ ":starRegistry")
      with (String ":" (JS.secondsText (Date_getTime (ticks s))
                          +:+ String ":" "starRegistry")).
    rewrite (split_app_sep ":" address _ Haddr). f_equal.
    rewrite split_app_sep; [done|].
    rewrite secondsText_pretty by done. by apply split_pretty_N_go. }
  split; [exact Hsplit|]. rewrite Hsplit. cbn [lookup list_lookup].
  by apply parseInt_secondsText.
Qed.

End SubmitEffects.

(** ** Construction, and calls made before an earlier one has settled *)

Section Construction.

Context {BC : BlockClass} {Env : Environment}.



(** X18: two [_addBlock] calls made in the same turn, for two distinct
    entries that the chain does not hold, that both resolve: the chain
    grows by the two entries, in the order of the calls, but both carry
    the old length of the chain as their height, and so does
    [this.height], while the entries that were in the chain are left as
    they were.  The entry of the second call sits one index above its
    height, and the height of the engine is the length of the chain minus
    two. *)
Theorem overlapping_appends_share_a_height
    (s s' : Store) (blockA blockB : loc) :
  blockA <> blockB ->
  blockA ∉ chain s ->
  blockB ∉ chain s ->
  _addBlock_overlapping blockA blockB s
  = ((Resolved blockA, Resolved blockB), s') ->
  chain s' = chain s ++ [blockA; blockB]
  /\ (forall l, l ∈ chain s -> heap s' !! l = heap s !! l)
  /\ (exists bA bB,
        heap s' !! blockA = Some bA /\ heap s' !! blockB = Some bB
        /\ height bA = Z.of_nat (length (chain s))
        /\ height bB = Z.of_nat (length (chain s)))
  /\ chainHeight s' = (Z.of_nat (length (chain s')) - 2)%Z
  /\ ~ heights_are_indices s'
  /\ ~ height_is_last_index s'.
Proof.
  intros Hne HfreshA HfreshB Hrun.
  destruct (_addBlock_overlapping_run s s' blockA blockB Hne Hrun)
    as (a0 & b0 & a3 & b3 & Ha0 & Hb0 & Ha3 & Hb3 & _ & ->).
  destruct (stamped_fields _ _ _ Ha3) as (_ & HhA & _).
  destruct (stamped_fields _ _ _ Hb3) as (_ & HhB & _).
  cbn [chain stamping] in HhB.
  assert (HltA : blockA < length (heap s)) by (by eapply lookup_lt_Some).
  assert (HltB : blockB < length (heap s)) by (by eapply lookup_lt_Some).
  assert (HA : <[blockB := sealed b3]> (<[blockA := sealed a3]> (heap s)) !! blockA
               = Some (sealed a3)).
  { rewrite list_lookup_insert_ne by done. by apply list_lookup_insert_eq. }
  assert (HB : <[blockB := sealed b3]> (<[blockA := sealed a3]> (heap s)) !! blockB
               = Some (sealed b3)).
  { apply list_lookup_insert_eq. by rewrite length_insert. }
  cbn [heap chain chainHeight].
  split; [done|]. split; [|split; [|split; [|split]]].
  - intros l Hl. rewrite !list_lookup_insert_ne; [done|..]; by intros ->.
  - by exists (sealed a3), (sealed b3).
  - rewrite HhB, length_app. cbn [length]. lia.
  - intros Hh.
    specialize (Hh (S (length (chain s))) blockB (sealed b3)).
    cbn [heap chain] in Hh.
    rewrite lookup_app_r in Hh by lia.
    replace (S (length (chain s)) - length (chain s)) with 1 in Hh by lia.
    specialize (Hh eq_refl HB). cbn [height sealed set_hash] in Hh. lia.
  - unfold height_is_last_index. cbn [chain chainHeight].
    rewrite HhB, length_app. cbn [length]. lia.
Qed.

End Construction.

(** ** More on validation and look-ups *)

Section MoreLookups.

Context {BC : BlockClass} {Env : Environment}.

Lemma Array_find_frame (pred : Block -> bool) (arr : list loc) (s : Store) :
  snd (Array_find pred arr s) = s.
Proof.
  induction arr as [|l arr' IH]; [done|].
  cbn [Array_find]. unfold Js_bind, read.
  destruct (heap s !! l) as [b|]; [|done]. by destruct (pred b).
Qed.

Lemma Array_filter_first_frame (pred : Block -> bool) (arr : list loc) (s : Store) :
  snd (Array_filter_first pred arr s) = s.
Proof.
  induction arr as [|l arr' IH]; [done|].
  cbn [Array_filter_first]. unfold Js_bind at 1, read at 1.
  destruct (heap s !! l) as [b|]; [|done].
  destruct (pred b); [|done]. unfold Js_bind.
  by destruct (Array_filter_first pred arr' s) as [[?|?|] ?].
Qed.

Lemma getStars_loop_frame (address : string) (rest : list loc) (s : Store) :
  snd (getStars_loop address rest s) = s.
Proof.
  induction rest as [|l rest' IH]; [done|].
  cbn [getStars_loop]. unfold Js_bind at 1, read at 1.
  destruct (heap s !! l) as [b|]; [|done].
  unfold Js_bind at 1. destruct (getBData b) as [q|e]; cbn [call Js_ret throw];
    [|done].
  unfold Js_bind. by destruct (getStars_loop address rest' s) as [[?|?|] ?].
Qed.

Lemma Array_filter_first_none (pred : Block -> bool) (s : Store) (arr : list loc) :
  Forall (fun l => exists b, heap s !! l = Some b /\ pred b = false) arr ->
  Array_filter_first pred arr s = (Resolved Undefined, s).
Proof.
  induction 1 as [|l arr' (b & Hb & Hp) _ IH]; [done|].
  cbn [Array_filter_first]. by rewrite (bind_read _ _ _ _ Hb), Hp.
Qed.

Lemma Array_filter_first_allocated (pred : Block -> bool) (s : Store) (arr : list loc) :
  Forall (fun l => is_Some (heap s !! l)) arr ->
  exists v, Array_filter_first pred arr s = (Resolved v, s).
Proof.
  induction 1 as [|l arr' [b Hb] _ [v IH]]; [by exists Undefined|].
  cbn [Array_filter_first]. rewrite (bind_read _ _ _ _ Hb).
  destruct (pred b); [|by exists v].
  exists (Ref l). unfold Js_bind. by rewrite IH.
Qed.

Lemma Array_filter_first_hit (pred : Block -> bool) (s : Store)
      (before after : list loc) (l : loc) (b : Block) :
  Forall (fun l => exists b, heap s !! l = Some b /\ pred b = false) before ->
  heap s !! l = Some b -> pred b = true ->
  Forall (fun l => is_Some (heap s !! l)) after ->
  Array_filter_first pred (before ++ l :: after) s = (Resolved (Ref l), s).
Proof.
  intros Hbefore Hb Hp Hafter.
  induction Hbefore as [|l' arr' (b' & Hb' & Hp') _ IH];
    cbn [app Array_filter_first].
  - rewrite (bind_read _ _ _ _ Hb), Hp.
    destruct (Array_filter_first_allocated pred s after Hafter) as [v Hv].
    unfold Js_bind. by rewrite Hv.
  - by rewrite (bind_read _ _ _ _ Hb'), Hp'.
Qed.

(** X10: in a chain whose entries carry their index as height,
    [getBlockByHeight] resolves with the entry at that index, and with
    [null] (never a rejection) for a height below 0 or past the end of the
    chain. *)
Theorem getBlockByHeight_by_index (s : Store) :
  chain_allocated s ->
  (forall j l b, chain s !! j = Some l -> heap s !! l = Some b ->
                 height b = Z.of_nat j) ->
  (forall i l, chain s !! i = Some l ->
               getBlockByHeight (Z.of_nat i) s = (Resolved (Ref l), s))
  /\ (forall h, (h < 0 \/ Z.of_nat (length (chain s)) <= h)%Z ->
                getBlockByHeight h s = (Resolved Null, s)).
Proof.
  intros Hall Hheights.
  assert (Hother : forall h (arr : list loc) (off : nat),
             (forall j l, arr !! j = Some l -> chain s !! (off + j) = Some l) ->
             (forall j, j < length arr -> Z.of_nat (off + j) <> h) ->
             Forall (fun l => exists b, heap s !! l = Some b
                                        /\ (height b =? h)%Z = false) arr).
  { intros h arr off Hsub Hne. apply Forall_lookup. intros j l Hj.
    pose proof (Hsub j l Hj) as Hc.
    unfold chain_allocated in Hall. rewrite Forall_lookup in Hall.
    destruct (Hall _ _ Hc) as [b Hb]. exists b. split; [done|].
    apply Z.eqb_neq. rewrite (Hheights _ _ _ Hc Hb).
    apply Hne. by eapply lookup_lt_Some. }
  split.
  - intros i l Hl.
    unfold chain_allocated in Hall.
    pose proof Hall as Hall'. rewrite Forall_lookup in Hall'.
    destruct (Hall' _ _ Hl) as [b Hb].
    unfold getBlockByHeight. unfold Js_bind at 1, get_chain at 1.
    rewrite <- (take_drop_middle (chain s) i l Hl). unfold Js_bind at 1.
    rewrite (Array_filter_first_hit _ s (take i (chain s)) (drop (S i) (chain s)) l b).
    + reflexivity.
    + apply (Hother (Z.of_nat i) (take i (chain s)) 0).
      * intros j l' Hj. apply lookup_take_Some in Hj as [Hj _]. done.
      * intros j Hj. rewrite length_take in Hj. cbn. lia.
    + done.
    + apply Z.eqb_eq. by eapply Hheights.
    + by apply Forall_drop.
  - intros h Hh.
    unfold getBlockByHeight. unfold Js_bind at 1, get_chain at 1.
    unfold Js_bind at 1. rewrite Array_filter_first_none; [done|].
    apply (Hother h (chain s) 0); [done|].
    intros j Hj. cbn. lia.
Qed.

(** X11: validation resolves with the empty list exactly when every entry
    passes its own validation and every entry that has a successor is what
    the successor refers back to. *)
Theorem validateChain_empty_iff (s : Store) :
  chain_allocated s ->
  fst (validateChain s) = Resolved []
  <-> (forall i l b,
         chain s !! i = Some l -> heap s !! l = Some b ->
         validate b = true
         /\ forall ln bn,
             chain s !! S i = Some ln -> heap s !! ln = Some bn ->
             previousBlockHash bn = hash b).
Proof.
  intros Hall. destruct (chain_allocated_entries s Hall) as [bs Hbs].
  rewrite (validateChain_run s bs Hbs). cbn [fst].
  split.
  - intros [= Herr]. pose proof (proj1 (errorsFrom_nil_iff bs) Herr) as Hfl.
    intros i l b Hl Hb. specialize (Hfl i). unfold flagged in Hfl.
    rewrite (entries_are_lookup s bs i l b Hbs Hl Hb) in Hfl.
    destruct (validate b); [|done]. split; [done|].
    intros ln bn Hln Hbn. cbn [negb] in Hfl.
    rewrite (entries_are_lookup s bs (S i) ln bn Hbs Hln Hbn) in Hfl.
    unfold loose_neq in Hfl. apply negb_false_iff, bool_decide_eq_true in Hfl.
    done.
  - intros Hgood. f_equal. apply errorsFrom_nil_iff. intros i. unfold flagged.
    destruct (bs !! i) as [b|] eqn:Hb; [|done].
    destruct (Forall2_lookup_r _ _ _ _ _ Hbs Hb) as (l & Hl & Hlb).
    destruct (Hgood i l b Hl Hlb) as [Hv Hlink]. rewrite Hv. cbn [negb].
    destruct (bs !! S i) as [bn|] eqn:Hbn; [|done].
    destruct (Forall2_lookup_r _ _ _ _ _ Hbs Hbn) as (ln & Hln & Hlbn).
    unfold loose_neq. rewrite bool_decide_true; [done|].
    symmetry. by eapply Hlink.
Qed.

(** X12: tamper evidence.  In a chain on which validation reports nothing,
    overwriting the stored digest of any entry that has a successor with
    another value makes validation report the index of that entry. *)
Theorem validateChain_detects_overwritten_hash
    (s : Store) (k : nat) (l : loc) (b : Block) (h' : option string) :
  fst (validateChain s) = Resolved [] ->
  chain s !! k = Some l ->
  S k < length (chain s) ->
  heap s !! l = Some b ->
  h' <> hash b ->
  let s' := mkStore (<[l := set_hash h' b]> (heap s)) (chain s)
              (chainHeight s) (ticks s) in
  exists errorLog,
    validateChain s' = (Resolved errorLog, s') /\ k ∈ errorLog.
Proof.
  intros Hval Hl Hk Hb Hne s'.
  pose proof (validateChain_resolved_allocated s [] Hval) as Hall.
  destruct (chain_allocated_entries s Hall) as [bs Hbs].
  rewrite (validateChain_run s bs Hbs) in Hval. injection Hval as Herr.
  pose proof (proj1 (errorsFrom_nil_iff bs) Herr k) as Hfl.
  destruct (lookup_lt_is_Some_2 (chain s) (S k) Hk) as [ln Hln].
  unfold chain_allocated in Hall. pose proof Hall as Hall'.
  rewrite Forall_lookup in Hall'. destruct (Hall' _ _ Hln) as [bn Hbn].
  unfold flagged in Hfl.
  rewrite (entries_are_lookup s bs k l b Hbs Hl Hb),
    (entries_are_lookup s bs (S k) ln bn Hbs Hln Hbn) in Hfl.
  destruct (validate b); [|done]. cbn [negb] in Hfl.
  unfold loose_neq in Hfl. apply negb_false_iff, bool_decide_eq_true in Hfl.
  assert (Hlt : l < length (heap s)) by (by eapply lookup_lt_Some).
  assert (Hall1 : chain_allocated s').
  { unfold chain_allocated. cbn [heap chain s'].
    eapply Forall_impl; [exact Hall|]. intros l' Hl'. cbn beta in *.
    apply lookup_lt_is_Some. rewrite length_insert.
    by apply lookup_lt_is_Some. }
  destruct (chain_allocated_entries s' Hall1) as [bs' Hbs'].
  exists (errorsFrom bs' 0). split; [by apply validateChain_run|].
  apply elem_of_errorsFrom. split; [lia|]. rewrite Nat.sub_0_r.
  assert (Hb' : heap s' !! l = Some (set_hash h' b)).
  { cbn [heap s']. by apply list_lookup_insert_eq. }
  assert (Hbn' : exists bn', heap s' !! ln = Some bn'
                             /\ previousBlockHash bn' = previousBlockHash bn).
  { destruct (decide (l = ln)) as [<-|Hneq].
    - exists (set_hash h' b). split; [done|].
      assert (b = bn) by congruence. by subst.
    - exists bn. split; [|done]. cbn [heap s'].
      by rewrite list_lookup_insert_ne. }
  destruct Hbn' as (bn' & Hbn' & Hprev).
  unfold flagged.
  rewrite (entries_are_lookup s' bs' k l _ Hbs' Hl Hb'),
    (entries_are_lookup s' bs' (S k) ln bn' Hbs' Hln Hbn').
  destruct (negb (validate (set_hash h' b))); [done|].
  unfold loose_neq. rewrite bool_decide_false; [done|].
  cbn [hash set_hash]. congruence.
Qed.

(** X13: the queries never change the store: [getChainHeight],
    [getBlockByHash], [getBlockByHeight], [getStarsByWalletAddress] and
    [validateChain] leave the heap, the chain, the height and the clock as
    they found them, whatever they settle with. *)
Theorem queries_leave_the_store
    (s : Store) (h : option string) (z : Z) (address : string) :
  snd (getChainHeight s) = s
  /\ snd (getBlockByHash h s) = s
  /\ snd (getBlockByHeight z s) = s
  /\ snd (getStarsByWalletAddress address s) = s
  /\ snd (validateChain s) = s.
Proof.
  split; [done|]. split; [|split; [|split]].
  - unfold getBlockByHash. unfold Js_bind at 1, get_chain at 1.
    unfold Js_bind.
    pose proof (Array_find_frame
                  (fun myBlock => strict_eq (hash myBlock) h) (chain s) s) as Hf.
    destruct (Array_find _ (chain s) s) as [[v|e|] s1]; cbn [snd] in *; subst;
      [|done..].
    by destruct (strict_neq_null v).
  - unfold getBlockByHeight. unfold Js_bind at 1, get_chain at 1.
    unfold Js_bind.
    pose proof (Array_filter_first_frame
                  (fun p => (height p =? z)%Z) (chain s) s) as Hf.
    destruct (Array_filter_first _ (chain s) s) as [[v|e|] s1]; cbn [snd] in *;
      subst; [|done..].
    by destruct v.
  - unfold getStarsByWalletAddress. unfold Js_bind at 1, get_chain at 1.
    unfold Js_bind.
    pose proof (getStars_loop_frame address (chain s) s) as Hf.
    destruct (getStars_loop address (chain s) s) as [[ps|e|] s1];
      cbn [snd] in *; subst; [|done..].
    by destruct (Promise_all ps).
  - apply validateChain_frame.
Qed.

End MoreLookups.

(** ** The registry *)

Section Registry.

Context {BC : BlockClass} {Env : Environment}.

Lemma addBlock_body (s s' : Store) (block l : loc) (b0 : Block) :
  heap s !! block = Some b0 ->
  _addBlock block s = (Resolved l, s') ->
  exists b', heap s' !! block = Some b' /\ body b' = body b0.
Proof.
  intros Hb0 Hrun.
  assert (Hlt : block < length (heap s)) by (by eapply lookup_lt_Some).
  rewrite (_addBlock_run s block b0 Hb0) in Hrun.
  destruct (stamped s b0) as [b3|] eqn:Hb3; [|discriminate Hrun].
  cbv zeta in Hrun.
  destruct (stamped_fields s b0 b3 Hb3) as (_ & _ & _ & Hbody & _).
  destruct (fst (validateChain (stamping s block (sealed b3)))) as [log|e|];
    [|discriminate Hrun..].
  destruct (0 <? length log)%nat; [discriminate Hrun|].
  injection Hrun as _ <-. exists (sealed b3). cbn [heap stamping].
  split; [by apply list_lookup_insert_eq | done].
Qed.

(** What a submission leaves behind, by its outcome. *)
Lemma submitStar_inv
    (address message signature : string) (star : Star)
    (s s' : Store) (r : Promise loc) :
  submitStar address message signature star s = (r, s') ->
  (forall l, l < length (heap s) -> heap s' !! l = heap s !! l)
  /\ (((exists e, r = Rejected e) /\ chain s' = chain s)
      \/ (r = Resolved (length (heap s))
          /\ chain s' = chain s ++ [length (heap s)]
          /\ exists b', heap s' !! length (heap s) = Some b'
                        /\ body b' = body (Block_new (StarData address star)))).
Proof.
  rewrite submitStar_window.
  destruct (JS.gt _ _); [intros [= <- <-]; split; [done|left; eauto]|].
  rewrite verify_and_append_run.
  destruct (bitcoinMessage_verify message address signature) as [[|]|e];
    [|intros [= <- <-]; split; [done|left; eauto]..].
  cbn [tick heap chain chainHeight ticks].
  set (b0 := Block_new (StarData address star)).
  set (s1 := mkStore (heap s ++ [b0]) (chain s) (chainHeight s) (S (ticks s))).
  assert (Hb0 : heap s1 !! length (heap s) = Some b0).
  { cbn [heap s1]. by rewrite list_lookup_middle. }
  destruct (_addBlock (length (heap s)) s1) as [r1 s2] eqn:Hadd.
  destruct (addBlock_chain s1 s2 _ r1 Hadd) as (_ & Hframe & _ & Hr).
  assert (Hold : forall l, l < length (heap s) -> heap s2 !! l = heap s !! l).
  { intros l Hl. rewrite Hframe by lia. cbn [heap s1]. by apply lookup_app_l. }
  destruct r1 as [l|e|]; intros [= <- <-];
    [|split; [done|left; split; [by eexists | by destruct Hr]]|done].
  destruct Hr as (_ & Hchain & _). split; [done|]. right.
  split; [done|]. split; [done|].
  by apply (addBlock_body s1 s2 _ l b0).
Qed.

Lemma decodes_to_frame (s s' : Store) (l : loc) (data : Payload) :
  (forall l, l < length (heap s) -> heap s' !! l = heap s !! l) ->
  decodes_to s l data -> decodes_to s' l data.
Proof.
  intros Hframe (b & Hb & Hd). exists b. split; [|done].
  rewrite Hframe; [done|]. by eapply lookup_lt_Some.
Qed.

Lemma getStars_run (owner : string) (s : Store) (datas : list Payload) :
  Forall2 (decodes_to s) (chain s) datas ->
  getStarsByWalletAddress owner s
  = (Resolved (filter (owned_by owner) datas), s).
Proof.
  intros Hdec. unfold getStarsByWalletAddress.
  unfold Js_bind at 1, get_chain at 1. unfold Js_bind at 1.
  rewrite (getStars_loop_run owner s _ datas Hdec).
  by rewrite Promise_all_resolved, filter_non_null_owned.
Qed.

(** X14: a registered star is listed.  If the payloads of the chain decode
    to [datas], a submission resolves, and the entry it appended decodes to
    the payload that was submitted, then a scan for any owner resolves with
    that owner's payloads among [datas] followed, when the owner is the
    submitter, by the new star: earlier results are kept, in order, and the
    new star is last. *)
Theorem submitted_star_is_listed
    (address message signature : string) (star : Star)
    (s s' : Store) (block : loc) (datas : list Payload) :
  Forall2 (decodes_to s) (chain s) datas ->
  submitStar address message signature star s = (Resolved block, s') ->
  decodes_to s' block (StarData address star) ->
  (forall owner,
      getStarsByWalletAddress owner s'
      = (Resolved (filter (owned_by owner) (datas ++ [StarData address star])), s'))
  /\ getStarsByWalletAddress address s'
     = (Resolved (filter (owned_by address) datas ++ [StarData address star]), s').
Proof.
  intros Hdec Hrun Hnew.
  destruct (submitStar_inv _ _ _ _ _ _ _ Hrun) as [Hframe [[[e He] _]|Hres]];
    [discriminate He|].
  destruct Hres as ([= ->] & Hchain & _).
  assert (Hdec' : Forall2 (decodes_to s') (chain s')
                    (datas ++ [StarData address star])).
  { rewrite Hchain. apply Forall2_app.
    - eapply Forall2_impl; [exact Hdec|]. intros l d Hld.
      by apply (decodes_to_frame s s').
    - by repeat constructor. }
  split.
  - intros owner. by apply getStars_run.
  - rewrite (getStars_run address s' _ Hdec'), filter_app. do 3 f_equal.
    rewrite filter_cons, decide_True by reflexivity. done.
Qed.

End Registry.

Section RegistryOfTheSpecification.

Context {Env : Environment}.

#[local] Existing Instance SpecBlock.

Lemma Registered_Built (s : Store) (datas : list Payload) :
  Registered s datas -> Built s.
Proof.
  induction 1 as [h t|s s' datas a m sg st block _ IH Hrun
                 |s s' datas a m sg st e _ IH Hrun|s datas _ IH].
  - apply Built_init.
  - by eapply submitStar_Built.
  - rewrite submitStar_window in Hrun.
    destruct (JS.gt _ _); [injection Hrun as _ <-; by apply Built_tick|].
    rewrite verify_and_append_run in Hrun.
    destruct (bitcoinMessage_verify m a sg) as [[|]|e'];
      [|injection Hrun as _ <-; by apply Built_tick..].
    destruct (Built_Sound _ (Built_tick s IH)) as [bs HS].
    destruct (Sound_append _ bs (StarData a st) HS) as (s2 & bs' & Hadd & _);
      [done|].
    cbv zeta in Hadd. cbn [tick heap chain chainHeight ticks] in Hrun.
    cbn [heap chain chainHeight ticks] in Hadd.
    rewrite Hadd in Hrun. discriminate Hrun.
  - by apply Built_tick.
Qed.

(** X15: with the Block class of the specification, on an engine whose
    initialization has settled and that has since been used through
    [submitStar] only, one call at a time, a submission that passes the
    time check and the verifier is accepted: the call resolves with a new
    entry, validation of the chain it leaves reports nothing, and the
    engine is again in such a state. *)
Theorem valid_submission_is_accepted
    (address message signature : string) (star : Star)
    (s : Store) (datas : list Payload) :
  Registered s datas ->
  JS.gt (elapsedTime s message) (JS.Num MesgTimeLimitSec) = false ->
  bitcoinMessage_verify message address signature = Returns true ->
  exists s',
    submitStar address message signature star s
    = (Resolved (length (heap s)), s')
    /\ Registered s' (datas ++ [StarData address star])
    /\ validateChain s' = (Resolved [], s').
Proof.
  intros HR Hwin Hv.
  pose proof (Registered_Built s datas HR) as HB.
  destruct (Built_Sound _ (Built_tick s HB)) as [bs HS].
  destruct (Sound_append _ bs (StarData address star) HS)
    as (s2 & bs' & Hadd & HS2); [done|].
  cbv zeta in Hadd. cbn [heap chain chainHeight ticks] in Hadd.
  assert (Hrun : submitStar address message signature star s
                 = (Resolved (length (heap s)), s2)).
  { rewrite (submitStar_accepted_run _ _ _ _ s Hwin Hv). by rewrite Hadd. }
  exists s2. split; [done|]. split.
  - by eapply Registered_accepted.
  - by eapply Sound_validateChain.
Qed.

Lemma Registered_decodes (s : Store) (datas : list Payload) :
  Registered s datas -> Forall2 (decodes_to s) (chain s) datas.
Proof.
  induction 1 as [h t|s s' datas a m sg st block _ IH Hrun
                 |s s' datas a m sg st e _ IH Hrun|s datas _ IH].
  - rewrite initialized_run. cbn [chain heap].
    constructor; [|constructor]. eexists. split.
    + by apply list_lookup_middle.
    + reflexivity.
  - destruct (submitStar_inv _ _ _ _ _ _ _ Hrun) as [Hframe [[[e He] _]|Hres]];
      [discriminate He|].
    destruct Hres as (_ & -> & b' & Hb' & Hbody).
    apply Forall2_app.
    + eapply Forall2_impl; [exact IH|]. intros l d Hld.
      by apply (decodes_to_frame s s').
    + constructor; [|constructor]. exists b'. split; [done|].
      cbn in *. by rewrite Hbody.
  - destruct (submitStar_inv _ _ _ _ _ _ _ Hrun) as [Hframe [[_ Hchain]|Hres]];
      [|by destruct Hres as [[=] _]].
    rewrite Hchain. eapply Forall2_impl; [exact IH|]. intros l d Hld.
    by apply (decodes_to_frame s s').
  - exact IH.
Qed.

(** X16: with the Block class of the specification, on an engine whose
    initialization has settled and that has since been used through
    [submitStar] only, one call at a time: the entries of the chain
    decode, in order, to the genesis payload and the payloads of the
    accepted submissions, and a scan for an owner resolves with exactly
    the payloads of the accepted submissions made for that owner, in the
    order they were accepted.  Rejected submissions leave no entry. *)
Theorem registry_lists_accepted_stars
    (s : Store) (datas : list Payload) (owner : string) :
  Registered s datas ->
  Forall2 (decodes_to s) (chain s) datas
  /\ getStarsByWalletAddress owner s
     = (Resolved (filter (owned_by owner) datas), s).
Proof.
  intros HR. pose proof (Registered_decodes s datas HR) as Hdec.
  split; [exact Hdec|]. by apply getStars_run.
Qed.

End RegistryOfTheSpecification.

(** ** More runs on concrete chains *)

Section MoreRuns.

Import Demo.

(** The chain of two stars and a newly constructed entry (reference 3). *)
Lemma addBlock_append_only_witness :
  ticks (snd (_addBlock 3 corrupted_and_entry)) = S (ticks corrupted_and_entry)
  /\ chain (snd (_addBlock 3 corrupted_and_entry)) = chain corrupted_and_entry.
Proof.
  destruct (addBlock_append_only corrupted_and_entry
              (snd (_addBlock 3 corrupted_and_entry)) 3
              (fst (_addBlock 3 corrupted_and_entry)))
    as (Hticks & _ & _ & [(Hres & _)|(_ & Hchain & _)]).
  - by destruct (_addBlock 3 corrupted_and_entry).
  - vm_compute in Hres. discriminate Hres.
  - split; [exact Hticks | exact Hchain].
Defined.

Lemma addBlock_on_empty_chain_witness :
  _addBlock 0 (mkStore [Block_new (StarData "addr1" "star A")] [] (-1) 0)
  = (Rejected TypeError,
     mkStore [set_height 0 (set_time "1000" (Block_new (StarData "addr1" "star A")))]
       [] (-1) 1).
Proof.
  destruct (addBlock_on_empty_chain
              (mkStore [Block_new (StarData "addr1" "star A")] [] (-1) 0) 0
              (Block_new (StarData "addr1" "star A")) eq_refl eq_refl)
    as [_ Hno].
  rewrite Hno; [|reflexivity]. vm_compute. reflexivity.
Defined.

Lemma addBlock_appends_sealed_entry_witness :
  exists s',
    _addBlock 3 (snd (alloc (Block_new (StarData "addr3" "star C")) two_stars))
    = (Resolved 3, s')
    /\ chain s' = [0; 1; 2; 3].
Proof.
  destruct (addBlock_appends_sealed_entry
              (snd (alloc (Block_new (StarData "addr3" "star C")) two_stars)) 3
              (Block_new (StarData "addr3" "star C")))
    as (s' & b' & Hrun & Hchain & _).
  - vm_compute. reflexivity.
  - apply (bool_decide_unpack _). vm_compute. exact I.
  - vm_compute. discriminate.
  - vm_compute. reflexivity.
  - exists s'. split; [exact Hrun | exact Hchain].
Defined.


(** [initializeChain()] called a second time in the turn of the
    constructor finds the height still at -1 and starts a second genesis
    entry: once both pending appends have resumed, the chain holds two
    entries of height 0. *)
Example initializeChain_twice_in_one_turn :
  let s := snd ((initializeChain_begin ;;;
                 _addBlock_commit 0 [] ;;;
                 _addBlock_commit 1 []) (Blockchain_new [] 0)) in
  chain s = [0; 1]
  /\ (height <$> heap s) = [0; 0]%Z
  /\ chainHeight s = 0%Z.
Proof. vm_compute. repeat split; reflexivity. Qed.

Lemma overlapping_appends_share_a_height_witness :
  _addBlock_overlapping 1 2 fresh_and_two_entries
  = ((Resolved 1, Resolved 2), overlapped)
  /\ chain overlapped = chain fresh_and_two_entries ++ [1; 2]
  /\ chainHeight overlapped = (Z.of_nat (length (chain overlapped)) - 2)%Z
  /\ ~ heights_are_indices overlapped
  /\ ~ height_is_last_index overlapped.
Proof.
  assert (Hrun : _addBlock_overlapping 1 2 fresh_and_two_entries
                 = ((Resolved 1, Resolved 2), overlapped))
    by (vm_compute; reflexivity).
  assert (Hne : 1 <> 2) by discriminate.
  assert (HA : 1 ∉ chain fresh_and_two_entries).
  { vm_compute. intros Hin. apply elem_of_cons in Hin as [Hin|Hin]; [discriminate Hin|].
    by apply elem_of_nil in Hin. }
  assert (HB : 2 ∉ chain fresh_and_two_entries).
  { vm_compute. intros Hin. apply elem_of_cons in Hin as [Hin|Hin]; [discriminate Hin|].
    by apply elem_of_nil in Hin. }
  destruct (overlapping_appends_share_a_height
              fresh_and_two_entries overlapped 1 2 Hne HA HB Hrun)
    as (Hchain & _ & _ & He & Hh & Hl).
  by repeat split.
Defined.

(** After the two overlapping calls every later submission is refused,
    however valid. *)
Example submission_after_overlapping_appends :
  fst (validateChain overlapped) = Resolved [1]
  /\ fst (submitStar "addr3" "addr3:1500:starRegistry"
            "signed:addr3:1500:starRegistry" "star C" overlapped)
     = Rejected ChainCorruptedError.
Proof. vm_compute. split; reflexivity. Qed.

Lemma submitStar_registers_star_witness :
  exists s',
    submitStar "addr1" "addr1:1000:starRegistry"
      "signed:addr1:1000:starRegistry" "star A" fresh = (Resolved 1, s')
    /\ chain s' = [0; 1]
    /\ fst (getChainHeight s') = Resolved 1%Z.
Proof.
  destruct (submitStar_registers_star "addr1" "addr1:1000:starRegistry"
              "signed:addr1:1000:starRegistry" "star A" fresh)
    as (s' & b' & Hrun & Hchain & Hheight & _).
  - vm_compute. reflexivity.
  - vm_compute. reflexivity.
  - vm_compute. discriminate.
  - vm_compute. reflexivity.
  - exists s'. split; [exact Hrun|]. split; [exact Hchain | exact Hheight].
Defined.

Lemma submitStar_chain_effect_witness :
  chain (snd (submitStar "addr1" "addr1:1000:starRegistry" "forged" "star A" fresh))
  = chain fresh.
Proof.
  destruct (submitStar_chain_effect "addr1" "addr1:1000:starRegistry" "forged"
              "star A" fresh
              (snd (submitStar "addr1" "addr1:1000:starRegistry" "forged"
                      "star A" fresh))
              (Rejected SignatureInvalidError))
    as (_ & Hchain & _).
  - vm_compute. reflexivity.
  - exact Hchain.
Defined.

Lemma submitStar_refused_on_broken_chain_witness :
  exists s',
    submitStar "addr3" "addr3:1900:starRegistry" "signed:addr3:1900:starRegistry"
      "star C" corrupted
    = (Rejected ChainCorruptedError, s')
    /\ chain s' = chain corrupted.
Proof.
  destruct (submitStar_refused_on_broken_chain "addr3" "addr3:1900:starRegistry"
              "signed:addr3:1900:starRegistry" "star C" corrupted [1])
    as (s' & Hrun & Hchain & _).
  - vm_compute. reflexivity.
  - vm_compute. reflexivity.
  - vm_compute. reflexivity.
  - discriminate.
  - exists s'. split; [exact Hrun | exact Hchain].
Defined.

(** A challenge issued at second 1000 and submitted at second 1200. *)
Lemma challenge_window_witness :
  fst (submitStar "addr1" "addr1:1000:starRegistry" "any" "star A" fresh)
    = Rejected ChallengeExpiredError
  <-> (Date_getTime (ticks fresh) / 1000
       - Date_getTime (ticks (mkStore [] [] (-1) 0)) / 1000 > 300)%Z.
Proof.
  apply (challenge_window "addr1" "addr1:1000:starRegistry" "any" "star A"
           (mkStore [] [] (-1) 0) fresh).
  - vm_compute. discriminate.
  - vm_compute. discriminate.
  - reflexivity.
  - vm_compute. reflexivity.
Defined.

Lemma requestMessageOwnershipVerification_format_witness :
  exists message,
    requestMessageOwnershipVerification "addr1" fresh
    = (Resolved message, tick fresh)
    /\ JS.split ":" message = ["addr1"; "1200"; "starRegistry"]%string.
Proof.
  destruct (requestMessageOwnershipVerification_format "addr1" fresh)
    as (message & Hrun & Hsplit & _).
  - vm_compute. discriminate.
  - reflexivity.
  - exists message. split; [exact Hrun|]. rewrite Hsplit. vm_compute. reflexivity.
Defined.

Lemma getBlockByHeight_by_index_witness :
  getBlockByHeight 2 two_stars = (Resolved (Ref 2), two_stars)
  /\ getBlockByHeight 3 two_stars = (Resolved Null, two_stars)
  /\ getBlockByHeight (-1) two_stars = (Resolved Null, two_stars).
Proof.
  destruct (getBlockByHeight_by_index two_stars) as [Hin Hout].
  - vm_compute. repeat (constructor; [eexists; reflexivity|]). constructor.
  - intros j l b Hl Hb.
    destruct j as [|[|[|j]]]; vm_compute in Hl; try discriminate Hl;
      injection Hl as <-; vm_compute in Hb; injection Hb as <-; reflexivity.
  - split; [apply (Hin 2%nat 2%nat); reflexivity|].
    split; apply Hout; vm_compute; [right | left]; congruence.
Defined.

Lemma validateChain_empty_iff_witness :
  fst (validateChain two_stars) = Resolved []
  <-> (forall i l b,
         chain two_stars !! i = Some l -> heap two_stars !! l = Some b ->
         validate b = true
         /\ forall ln bn,
             chain two_stars !! S i = Some ln -> heap two_stars !! ln = Some bn ->
             previousBlockHash bn = hash b).
Proof.
  apply validateChain_empty_iff.
  vm_compute. repeat (constructor; [eexists; reflexivity|]). constructor.
Defined.

(** The digest of entry 1 of the chain of two stars is blanked. *)
Lemma validateChain_detects_overwritten_hash_witness :
  exists b errorLog,
    heap two_stars !! 1%nat = Some b
    /\ fst (validateChain
              (mkStore (<[1%nat := set_hash None b]> (heap two_stars))
                 (chain two_stars) (chainHeight two_stars) (ticks two_stars)))
       = Resolved errorLog
    /\ 1%nat ∈ errorLog.
Proof.
  destruct (heap two_stars !! 1%nat) as [b|] eqn:Hb;
    [|vm_compute in Hb; discriminate Hb].
  destruct (validateChain_detects_overwritten_hash two_stars 1 1 b None)
    as (errorLog & Hrun & Hin).
  - vm_compute. reflexivity.
  - reflexivity.
  - vm_compute. lia.
  - exact Hb.
  - vm_compute in Hb. injection Hb as <-. discriminate.
  - exists b, errorLog. split; [reflexivity|]. split; [by rewrite Hrun | exact Hin].
Defined.

Lemma submitted_star_is_listed_witness :
  getStarsByWalletAddress "addr1" one_star
  = (Resolved [StarData "addr1" "star A"], one_star).
Proof.
  destruct (submitted_star_is_listed "addr1" "addr1:1000:starRegistry"
              "signed:addr1:1000:starRegistry" "star A" fresh one_star 1
              [GenesisData])
    as [_ Hlist].
  - vm_compute. constructor; [|constructor]. eexists. split; reflexivity.
  - vm_compute. reflexivity.
  - vm_compute. eexists. split; reflexivity.
  - exact Hlist.
Defined.

Lemma valid_submission_is_accepted_witness :
  exists s',
    submitStar "addr1" "addr1:1000:starRegistry"
      "signed:addr1:1000:starRegistry" "star A" fresh = (Resolved 1, s')
    /\ Registered s' [GenesisData; StarData "addr1" "star A"].
Proof.
  destruct (valid_submission_is_accepted "addr1" "addr1:1000:starRegistry"
              "signed:addr1:1000:starRegistry" "star A" fresh [GenesisData])
    as (s' & Hrun & HR & _).
  - apply Registered_init.
  - vm_compute. reflexivity.
  - vm_compute. reflexivity.
  - exists s'. split; [exact Hrun | exact HR].
Defined.

Lemma registry_lists_accepted_stars_witness :
  getStarsByWalletAddress "addr2" two_stars
  = (Resolved [StarData "addr2" "star B"], two_stars).
Proof.
  destruct (registry_lists_accepted_stars two_stars
              [GenesisData; StarData "addr1" "star A"; StarData "addr2" "star B"]
              "addr2") as [_ Hrun].
  - apply (Registered_accepted one_star two_stars
             [GenesisData; StarData "addr1" "star A"]
             "addr2" "addr2:1500:starRegistry" "signed:addr2:1500:starRegistry"
             "star B" 2).
    + apply (Registered_accepted fresh one_star [GenesisData]
               "addr1" "addr1:1000:starRegistry"
               "signed:addr1:1000:starRegistry" "star A" 1).
      * apply Registered_init.
      * vm_compute. reflexivity.
    + vm_compute. reflexivity.
  - exact Hrun.
Defined.

Lemma getBlockByHash_first_witness :
  exists h, getBlockByHash h two_stars = (Resolved (Ref 1), two_stars).
Proof.
  destruct (heap two_stars !! 1%nat) as [b|] eqn:Hb;
    [|vm_compute in Hb; discriminate Hb].
  exists (hash b).
  apply (getBlockByHash_first (hash b) two_stars [0] [2] 1 b).
  - reflexivity.
  - constructor; [|constructor].
    vm_compute in Hb. injection Hb as <-.
    eexists. split; [vm_compute; reflexivity | vm_compute; discriminate].
  - exact Hb.
  - reflexivity.
Defined.

End MoreRuns.
